(** * rayforge: the STEP importer ([rayforge/image/step/importer.py])

    A shallow embedding of [StepImporter.get_doc_items] and the properties
    of its alignment, path assembly and normalisation stages.

    Conventions of the embedding.
    - The CadQuery kernel is an opaque capability set: a record [Kernel] of
      functions over handles.  Every kernel call may raise, so it returns a
      [res].
    - Python exceptions are values [Raise e]; the exceptions modelled are
      those derived from [Exception] (what [except Exception] catches).
    - Coordinates and areas are Python floats; they are modelled as exact
      rationals ([Q]).  Rounding, overflow and NaN are outside that model;
      the one float operation that Python itself makes partial, division,
      is kept partial ([py_div]).  Module [B64] repeats the normalisation
      in binary64, where overflow shows.
    - [Geometry] and [Matrix] live in [rayforge/core], outside this file's
      source; they are modelled from the specification. *)

From Stdlib Require Import String.
From Stdlib Require Import List Bool Arith Lia Permutation Sorted.
From Stdlib Require Import QArith Qminmax Lqa Qfield.
From Stdlib Require Import Strings.Byte.
From Stdlib Require Import Floats.SpecFloat.
Import ListNotations.

Local Open Scope Q_scope.

(* ------------------------------------------------------------------ *)
(** ** Exceptions *)

Definition exn := string.

Inductive res (A : Type) : Type :=
| Ok (a : A)
| Raise (e : exn).

Arguments Ok {A} a.
Arguments Raise {A} e.

Definition bind {A B : Type} (r : res A) (f : A -> res B) : res B :=
  match r with
  | Ok a => f a
  | Raise e => Raise e
  end.

Notation "x <- r ;; k" := (bind r (fun x => k))
  (at level 61, r at next level, right associativity).

(** [try: body except Exception: handler] *)
Definition try_except {A : Type} (body : res A) (handler : exn -> res A) : res A :=
  match body with
  | Ok a => Ok a
  | Raise e => handler e
  end.

(** Python's [for x in xs: ...] over a loop body that may raise, threading
    the loop state. *)
Fixpoint for_each {X S : Type} (body : X -> S -> res S) (xs : list X) (s : S) : res S :=
  match xs with
  | [] => Ok s
  | x :: xs' => s' <- body x s ;; for_each body xs' s'
  end.

(** [[f(x) for x in xs]], stopping at the first call that raises. *)
Fixpoint map_res {X Y : Type} (f : X -> res Y) (xs : list X) : res (list Y) :=
  match xs with
  | [] => Ok []
  | x :: xs' => y <- f x ;; ys <- map_res f xs' ;; Ok (y :: ys)
  end.

(** Python float division: [a / b] raises [ZeroDivisionError] when [b] is
    zero. *)
Definition py_div (a b : Q) : res Q :=
  if Qeq_bool b 0 then Raise "ZeroDivisionError"%string else Ok (a / b).

(** [a > 0] on floats. *)
Definition Qpos_bool (a : Q) : bool := negb (Qle_bool a 0).

(* ------------------------------------------------------------------ *)
(** ** Geometry *)

(** A kernel point ([cadquery.Vector]); only [x] and [y] are read. *)
Record Vector : Type := mkVector { vx : Q; vy : Q }.

(** Modelled from the spec: [Geometry] of [rayforge/core/geo] is missing.
    "The output vector shape -- an ordered collection of subpaths, each a
    sequence of 2D points connected by straight segments", "built
    incrementally via move/line commands". *)
Inductive Command : Type :=
| MoveTo (x y : Q)
| LineTo (x y : Q).

Definition Geometry := list Command.

Definition move_to (geo : Geometry) (x y : Q) : Geometry := geo ++ [MoveTo x y].
Definition line_to (geo : Geometry) (x y : Q) : Geometry := geo ++ [LineTo x y].

Definition end_point (c : Command) : Q * Q :=
  match c with
  | MoveTo x y => (x, y)
  | LineTo x y => (x, y)
  end.

Definition points (geo : Geometry) : list (Q * Q) := map end_point geo.

(** The leading run of line commands, and the subpaths opened by the move
    commands after it. *)
Fixpoint split_paths (geo : Geometry) : list (Q * Q) * list (list (Q * Q)) :=
  match geo with
  | [] => ([], [])
  | LineTo x y :: geo' =>
      let '(run, sps) := split_paths geo' in ((x, y) :: run, sps)
  | MoveTo x y :: geo' =>
      let '(run, sps) := split_paths geo' in ([], ((x, y) :: run) :: sps)
  end.

(** Modelled from the spec: the subpaths of a geometry, each "a sequence of
    2D points"; a move command opens a subpath, a line command extends the
    current one. *)
Definition subpaths (geo : Geometry) : list (list (Q * Q)) :=
  match split_paths geo with
  | ([], sps) => sps
  | (run, sps) => run :: sps
  end.

(** Modelled from the spec: [Geometry.is_empty] is missing.  "An 'is empty'
    predicate (no subpaths or fewer than required points)"; the required
    number is the 2 of "every subpath has >= 2 points". *)
Definition is_empty (geo : Geometry) : bool :=
  (length (subpaths geo) =? 0)%nat || (length (points geo) <? 2)%nat.

(** Modelled from the spec: [Geometry.rect] is missing.  "Its axis-aligned
    bounding box (minX, minY, maxX, maxY)". *)
Definition grow_rect (r : Q * Q * Q * Q) (p : Q * Q) : Q * Q * Q * Q :=
  let '(min_x, min_y, max_x, max_y) := r in
  (Qmin min_x (fst p), Qmin min_y (snd p), Qmax max_x (fst p), Qmax max_y (snd p)).

Definition rect_of_points (ps : list (Q * Q)) : Q * Q * Q * Q :=
  match ps with
  | [] => (0, 0, 0, 0)
  | p :: ps' => fold_left grow_rect ps' (fst p, snd p, fst p, snd p)
  end.

Definition rect (geo : Geometry) : Q * Q * Q * Q := rect_of_points (points geo).

(** Modelled from the spec: [Matrix] of [rayforge/core/matrix] is missing.
    "A 2D affine map (translation + scale, composable)"; "transforms compose
    right-to-left (rightmost applied first to a point)". *)
Record Matrix : Type := mkMatrix { m_sx : Q; m_sy : Q; m_tx : Q; m_ty : Q }.

Definition translation (tx ty : Q) : Matrix := mkMatrix 1 1 tx ty.
Definition scale (sx sy : Q) : Matrix := mkMatrix sx sy 0 0.

(** [a @ b] *)
Definition matmul (a b : Matrix) : Matrix :=
  mkMatrix (m_sx a * m_sx b) (m_sy a * m_sy b)
           (m_sx a * m_tx b + m_tx a) (m_sy a * m_ty b + m_ty a).

Definition apply_matrix (m : Matrix) (p : Q * Q) : Q * Q :=
  (m_sx m * fst p + m_tx m, m_sy m * snd p + m_ty m).

Definition transform_command (m : Matrix) (c : Command) : Command :=
  match c with
  | MoveTo x y => let '(x', y') := apply_matrix m (x, y) in MoveTo x' y'
  | LineTo x y => let '(x', y') := apply_matrix m (x, y) in LineTo x' y'
  end.

(** Modelled from the spec: [Geometry.transform], the "affine transform" of
    every point of the geometry. *)
Definition transform (m : Matrix) (geo : Geometry) : Geometry :=
  map (transform_command m) geo.

(** Equality of geometries up to the representation of the rationals. *)
Definition point_eq (p q : Q * Q) : Prop := fst p == fst q /\ snd p == snd q.

Definition command_eq (c d : Command) : Prop :=
  match c, d with
  | MoveTo x y, MoveTo x' y' => x == x' /\ y == y'
  | LineTo x y, LineTo x' y' => x == x' /\ y == y'
  | _, _ => False
  end.

Definition geo_eq (g h : Geometry) : Prop := Forall2 command_eq g h.

Definition rect_eq (r s : Q * Q * Q * Q) : Prop :=
  let '(a, b, c, d) := r in
  let '(a', b', c', d') := s in
  a == a' /\ b == b' /\ c == c' /\ d == d'.

(* ------------------------------------------------------------------ *)
(** ** The CAD kernel *)

Definition ModelH := nat.   (* the Workplane returned by importStep *)
Definition ObjH := nat.     (* a Solid, Shell or Face *)
Definition FaceH := nat.    (* a planar Face *)
Definition PlaneH := nat.   (* a Workplane aligned to a face *)
Definition ProjH := nat.    (* a Workplane after toPending() *)
Definition WireH := nat.
Definition EdgeH := nat.

Record Kernel : Type := mkKernel {
  importStep : list byte -> res ModelH;      (* cq.importers.importStep(tmp_path) *)
  solids : ModelH -> res (list ObjH);        (* model.solids().vals() *)
  shells : ModelH -> res (list ObjH);        (* model.shells().vals() *)
  faces : ModelH -> res (list ObjH);         (* model.faces().vals() *)
  faces_PLANE : ObjH -> res (list FaceH);    (* cq.Workplane(obj=o).faces("%PLANE").vals() *)
  Area : FaceH -> res Q;                     (* f.Area() *)
  workplane : FaceH -> res PlaneH;           (* cq.Workplane(obj=f).workplane() *)
  add_toPending : PlaneH -> ObjH -> res ProjH; (* wp.add(o).toPending() *)
  toPending : ModelH -> res ProjH;           (* model.toPending() *)
  vals : ProjH -> res (list WireH);          (* projection.vals() *)
  Edges : WireH -> res (list EdgeH);         (* wire.Edges() *)
  startPoint : EdgeH -> res Vector;          (* edge.startPoint() *)
  discretize : EdgeH -> res (list Vector)    (* edge.discretize(tolerance=0.05) *)
}.

(** The host: the module-level flag and the temporary file.  The kernel
    reads the file it is given by path, so [importStep] takes the bytes
    that were written to it. *)
Record Host : Type := mkHost {
  CQ_AVAILABLE : bool;
  tmp_write : list byte -> res string   (* NamedTemporaryFile + tmp.write; the path *)
}.

Record StepImporter : Type := mkStepImporter {
  raw_data : list byte;
  source_file : string;
  source_file_stem : string
}.

(* ------------------------------------------------------------------ *)
(** ** What the importer hands to the host *)

(** [SourceAsset]; its [uid] and [renderer] are left out. *)
Record SourceAsset : Type := mkSourceAsset {
  sa_source_file : string;
  original_data : list byte;
  is_vector : bool;
  natural_size : Q * Q;
  sa_width_mm : Q;
  sa_height_mm : Q
}.

(** [SourceAssetSegment]; the vectorization spec is always [PassthroughSpec()]. *)
Record SourceAssetSegment : Type := mkSourceAssetSegment {
  segment_mask_geometry : Geometry;
  width_mm : Q;
  height_mm : Q
}.

Record WorkPiece : Type := mkWorkPiece {
  name : string;
  source_segment : SourceAssetSegment;
  matrix : Matrix
}.

Record ImportPayload : Type := mkImportPayload {
  source : SourceAsset;
  items : list WorkPiece
}.

(* ------------------------------------------------------------------ *)
(** ** [faces.sort(key=lambda f: f.Area(), reverse=True)]

    [list.sort] is a stable sort, also with [reverse=True]: faces of equal
    area keep the order in which the kernel listed them.  Any stable sort
    gives the same list; insertion is the one written here. *)

Fixpoint insert_desc (x : FaceH * Q) (l : list (FaceH * Q)) : list (FaceH * Q) :=
  match l with
  | [] => [x]
  | y :: l' =>
      if Qle_bool (snd y) (snd x) then x :: y :: l' else y :: insert_desc x l'
  end.

Fixpoint sort_desc (l : list (FaceH * Q)) : list (FaceH * Q) :=
  match l with
  | [] => []
  | x :: l' => insert_desc x (sort_desc l')
  end.

(* ------------------------------------------------------------------ *)
(** ** The pipeline of [get_doc_items] *)

Section Pipeline.

Variable k : Kernel.

(** Lines 54-60: solids, else shells, else faces. *)
Definition target_objects (model : ModelH) : res (list ObjH) :=
  t <- solids k model ;;
  t <- match t with
       | [] => shells k model
       | _ => Ok t
       end ;;
  match t with
  | [] => faces k model
  | _ => Ok t
  end.

(** Line 80: the keys are computed first, one [Area()] call per face. *)
Definition sort_by_area (fs : list FaceH) : res (list FaceH) :=
  keys <- map_res (Area k) fs ;;
  Ok (map fst (sort_desc (combine fs keys))).

(** Lines 75-81: the face the alignment uses. *)
Definition largest_planar_face (primary_object : ObjH) : res (option FaceH) :=
  fs <- faces_PLANE k primary_object ;;
  match fs with
  | [] => Ok None
  | _ =>
      sorted <- sort_by_area fs ;;
      match sorted with
      | [] => Raise "IndexError"%string
      | largest_face :: _ => Ok (Some largest_face)
      end
  end.

(** Lines 73-88, the body of the inner [try]. *)
Definition align_to_largest_face (primary_object : ObjH) : res (option ProjH) :=
  f <- largest_planar_face primary_object ;;
  match f with
  | None => Ok None
  | Some largest_face =>
      aligned_wp <- workplane k largest_face ;;
      projection <- add_toPending k aligned_wp primary_object ;;
      Ok (Some projection)
  end.

(** Lines 69-90: [projection] is [None] unless the body assigned it. *)
Definition auto_align (primary_object : ObjH) : res (option ProjH) :=
  try_except (align_to_largest_face primary_object) (fun _ => Ok None).

(** Lines 69-94. *)
Definition choose_projection (model : ModelH) (primary_object : ObjH) : res ProjH :=
  projection <- auto_align primary_object ;;
  match projection with
  | None => toPending k model
  | Some p => Ok p
  end.

(** Lines 122-123. *)
Definition line_to_all (geo : Geometry) (ps : list Vector) : Geometry :=
  fold_left (fun g p => line_to g (vx p) (vy p)) ps geo.

(** Lines 114-126: one iteration of the loop over the edges. *)
Definition edge_body (edge : EdgeH) (st : Geometry * nat) : res (Geometry * nat) :=
  let '(geo, edge_count) := st in
  try_except
    (pts <- discretize k edge ;;
     match pts with
     | [] => Ok (geo, edge_count)
     | _ :: rest => Ok (line_to_all geo rest, S edge_count)
     end)
    (fun _ => Ok (geo, edge_count)).

(** Lines 106-126: one iteration of the loop over the wires. *)
Definition wire_body (wire : WireH) (st : Geometry * nat) : res (Geometry * nat) :=
  let '(geo, edge_count) := st in
  edges <- Edges k wire ;;
  match edges with
  | [] => Ok (geo, edge_count)
  | e0 :: _ =>
      start_p <- startPoint k e0 ;;
      for_each edge_body edges (move_to geo (vx start_p) (vy start_p), edge_count)
  end.

(** Lines 97-126. *)
Definition extract_geometry (wires : list WireH) : res (Geometry * nat) :=
  for_each wire_body wires ([], 0%nat).

End Pipeline.

(** Lines 135-137, 149-156: [norm_geo]. *)
Definition normalize (geo : Geometry) : res Geometry :=
  let '(min_x, min_y, max_x, max_y) := rect geo in
  let width := max_x - min_x in
  let height := max_y - min_y in
  let norm_geo := transform (translation (- min_x) (- min_y)) geo in
  norm_geo <- (if Qpos_bool width && Qpos_bool height then
                 ix <- py_div 1 width ;;
                 iy <- py_div 1 height ;;
                 Ok (transform (scale ix iy) norm_geo)
               else Ok norm_geo) ;;
  Ok (transform (matmul (translation 0 1) (scale 1 (-1))) norm_geo).

(** Lines 135-172. *)
Definition package (self : StepImporter) (geo : Geometry) : res ImportPayload :=
  let '(min_x, min_y, max_x, max_y) := rect geo in
  let width := max_x - min_x in
  let height := max_y - min_y in
  let source := mkSourceAsset (source_file self) (raw_data self) true
                              (width, height) width height in
  norm_geo <- normalize geo ;;
  let gen_config := mkSourceAssetSegment norm_geo width height in
  let wp := mkWorkPiece (source_file_stem self) gen_config
                        (matmul (translation min_x min_y) (scale width height)) in
  Ok (mkImportPayload source [wp]).

(** Lines 96-172: from the projection to the payload. *)
Definition convert (k : Kernel) (self : StepImporter) (projection : ProjH)
  : res (option ImportPayload) :=
  wires <- vals k projection ;;
  match wires with
  | [] => Ok None
  | _ =>
      st <- extract_geometry k wires ;;
      let '(geo, edge_count) := st in
      if is_empty geo then Ok None
      else payload <- package self geo ;; Ok (Some payload)
  end.

(** Lines 48-94: from the bytes to the projection; [None] is the early
    [return None] of line 64. *)
Definition load_projection (k : Kernel) (self : StepImporter) : res (option ProjH) :=
  model <- importStep k (raw_data self) ;;
  target <- target_objects k model ;;
  match target with
  | [] => Ok None
  | primary_object :: _ =>
      projection <- choose_projection k model primary_object ;;
      Ok (Some projection)
  end.

(** Lines 48-172, the body of the outer [try]. *)
Definition import_body (k : Kernel) (self : StepImporter) : res (option ImportPayload) :=
  loaded <- load_projection k self ;;
  match loaded with
  | None => Ok None
  | Some projection => convert k self projection
  end.

(** Lines 37-183.  The [finally] clause removes the temporary file and
    swallows every error of the removal; it does not change what is
    returned. *)
Definition get_doc_items (h : Host) (k : Kernel) (self : StepImporter)
  : res (option ImportPayload) :=
  if negb (CQ_AVAILABLE h) then Ok None
  else
    tmp_path <- tmp_write h (raw_data self) ;;
    try_except (import_body k self) (fun _ => Ok None).

(** The geometries a payload places on the canvas: the mask of each work
    piece under the work piece's matrix. *)
Definition placed (payload : ImportPayload) : list Geometry :=
  map (fun wp => transform (matrix wp) (segment_mask_geometry (source_segment wp)))
      (items payload).

Definition masks (payload : ImportPayload) : list Geometry :=
  map (fun wp => segment_mask_geometry (source_segment wp)) (items payload).

(* ------------------------------------------------------------------ *)
(** ** The normaliser in the words of the specification *)



(* ------------------------------------------------------------------ *)
(** ** A table-driven kernel for concrete runs *)

Record EdgeData : Type := mkEdgeData {
  ed_start : res Vector;
  ed_points : res (list Vector)
}.

Record Mock : Type := mkMock {
  mock_solids : list ObjH;
  mock_shells : list ObjH;
  mock_faces : list ObjH;
  mock_areas : list (res Q);          (* planar face [i] has area [nth i] *)
  mock_wires : list (list EdgeH);     (* wire [i] has edges [nth i] *)
  mock_edges : list EdgeData          (* edge [i] is [nth i] *)
}.

Definition bad_handle {A : Type} : res A := Raise "bad handle"%string.

(** The aligned projection is handle 1, the default one handle 0; both
    show the same wires. *)
Definition mock_kernel (m : Mock) : Kernel := {|
  importStep := fun _ => Ok 0%nat;
  solids := fun _ => Ok (mock_solids m);
  shells := fun _ => Ok (mock_shells m);
  faces := fun _ => Ok (mock_faces m);
  faces_PLANE := fun _ => Ok (seq 0 (length (mock_areas m)));
  Area := fun f => nth f (mock_areas m) bad_handle;
  workplane := fun f => Ok f;
  add_toPending := fun _ _ => Ok 1%nat;
  toPending := fun _ => Ok 0%nat;
  vals := fun _ => Ok (seq 0 (length (mock_wires m)));
  Edges := fun w => nth w (map Ok (mock_wires m)) bad_handle;
  startPoint := fun e => nth e (map ed_start (mock_edges m)) bad_handle;
  discretize := fun e => nth e (map ed_points (mock_edges m)) bad_handle
|}.

Definition good_host : Host := mkHost true (fun _ => Ok "/tmp/tmpq3.step"%string).

(** A host whose temporary directory cannot be written. *)
Definition full_disk_host : Host :=
  mkHost true (fun _ => Raise "OSError: [Errno 28] No space left on device"%string).

Definition demo_importer : StepImporter :=
  mkStepImporter [x49; x53; x4f] "part.step"%string "part"%string.

Definition V (x y : Z) : Vector := mkVector (inject_Z x) (inject_Z y).

(** A straight edge from [a] to [b]. *)
Definition segment (a b : Vector) : EdgeData := mkEdgeData (Ok a) (Ok [a; b]).

(** An edge the kernel cannot discretize. *)
Definition broken_edge (a : Vector) : EdgeData :=
  mkEdgeData (Ok a) (Raise "Standard_Failure"%string).

(** An edge whose discretization is the empty list. *)
Definition empty_edge (a : Vector) : EdgeData := mkEdgeData (Ok a) (Ok []).

(** An edge without an evaluable start point. *)
Definition unevaluable_edge : EdgeData :=
  mkEdgeData (Raise "Standard_Failure"%string) (Ok [V 0 0; V 1 0]).

(** A 2 x 4 plate: three planar faces, the two largest of equal area; one
    rectangular outline. *)
Definition plate : Mock := {|
  mock_solids := [7%nat];
  mock_shells := [8%nat];
  mock_faces := [9%nat];
  mock_areas := [Ok 4; Ok 8; Ok 8];
  mock_wires := [[0; 1; 2; 3]%nat];
  mock_edges := [segment (V 0 0) (V 2 0); segment (V 2 0) (V 2 4);
                 segment (V 2 4) (V 0 4); segment (V 0 4) (V 0 0)]
|}.

(** A right triangle with legs 2 and 4. *)
Definition triangle : Mock := {|
  mock_solids := [7%nat];
  mock_shells := [];
  mock_faces := [];
  mock_areas := [Ok 4];
  mock_wires := [[0; 1; 2]%nat];
  mock_edges := [segment (V 0 0) (V 2 0); segment (V 2 0) (V 0 4);
                 segment (V 0 4) (V 0 0)]
|}.

Definition triangle_geo : Geometry :=
  [MoveTo 0 0; LineTo (inject_Z 2) 0; LineTo 0 (inject_Z 4); LineTo 0 0].

(** A loop with one edge that raises and one that discretizes to nothing. *)
Definition one_broken_one_empty : Mock := {|
  mock_solids := [7%nat];
  mock_shells := [];
  mock_faces := [];
  mock_areas := [];
  mock_wires := [[0; 1]%nat];
  mock_edges := [broken_edge (V 0 0); empty_edge (V 1 0)]
|}.

(** A good loop on its own ... *)
Definition good_loop_only : Mock := {|
  mock_solids := [7%nat];
  mock_shells := [];
  mock_faces := [];
  mock_areas := [];
  mock_wires := [[1; 2]%nat];
  mock_edges := [unevaluable_edge; segment (V 0 0) (V 2 3); segment (V 2 3) (V 0 0)]
|}.

(** ... and after a loop whose first edge has no start point. *)
Definition bad_first_loop : Mock := {|
  mock_solids := [7%nat];
  mock_shells := [];
  mock_faces := [];
  mock_areas := [];
  mock_wires := [[0]; [1; 2]]%nat;
  mock_edges := [unevaluable_edge; segment (V 0 0) (V 2 3); segment (V 2 3) (V 0 0)]
|}.

(** A triangle followed by a loop whose only edge cannot be discretized. *)
Definition dangling_loop : Mock := {|
  mock_solids := [7%nat];
  mock_shells := [];
  mock_faces := [];
  mock_areas := [];
  mock_wires := [[0; 1; 2]; [3]]%nat;
  mock_edges := [segment (V 0 0) (V 2 0); segment (V 2 0) (V 0 4);
                 segment (V 0 4) (V 0 0); broken_edge (V 5 5)]
|}.

(** Models without solids, without solids and shells, without anything. *)
Definition shell_model : Mock := {|
  mock_solids := [];
  mock_shells := [8; 18]%nat;
  mock_faces := [9%nat];
  mock_areas := mock_areas plate;
  mock_wires := mock_wires plate;
  mock_edges := mock_edges plate
|}.

Definition face_model : Mock := {|
  mock_solids := [];
  mock_shells := [];
  mock_faces := [9; 19]%nat;
  mock_areas := mock_areas plate;
  mock_wires := mock_wires plate;
  mock_edges := mock_edges plate
|}.

Definition empty_model : Mock := {|
  mock_solids := [];
  mock_shells := [];
  mock_faces := [];
  mock_areas := mock_areas plate;
  mock_wires := mock_wires plate;
  mock_edges := mock_edges plate
|}.

(** A plate one of whose faces has no computable area. *)
Definition plate_bad_area : Mock := {|
  mock_solids := [7%nat];
  mock_shells := [];
  mock_faces := [];
  mock_areas := [Ok 4; Raise "Standard_Failure"%string; Ok 8];
  mock_wires := mock_wires plate;
  mock_edges := mock_edges plate
|}.

(* ------------------------------------------------------------------ *)
(** ** Predicates used by the statements *)

(** [f] is the first face of [fs], in the kernel's order, among those of
    largest area. *)
Definition first_largest_face (k : Kernel) (fs : list FaceH) (f : FaceH) : Prop :=
  exists pre post a,
    fs = pre ++ f :: post /\
    Area k f = Ok a /\
    (forall g, In g pre -> exists b, Area k g = Ok b /\ b < a) /\
    (forall g, In g post -> exists b, Area k g = Ok b /\ b <= a).

Definition first_largest (keyed : list (FaceH * Q)) (f : FaceH * Q) : Prop :=
  exists pre post,
    keyed = pre ++ f :: post /\
    (forall g, In g pre -> snd g < snd f) /\
    (forall g, In g post -> snd g <= snd f).

(** The ways the alignment of lines 72-88 can fail to produce a projection:
    no planar face, or a kernel call of the face selection, of the plane
    derivation or of the projection raises. *)
Inductive alignment_degraded (k : Kernel) (obj : ObjH) : Prop :=
| no_planar_face :
    faces_PLANE k obj = Ok [] -> alignment_degraded k obj
| face_listing_raises e :
    faces_PLANE k obj = Raise e -> alignment_degraded k obj
| area_raises fs f e :
    faces_PLANE k obj = Ok fs -> In f fs -> Area k f = Raise e ->
    alignment_degraded k obj
| workplane_raises f e :
    largest_planar_face k obj = Ok (Some f) -> workplane k f = Raise e ->
    alignment_degraded k obj
| projection_raises f wp e :
    largest_planar_face k obj = Ok (Some f) -> workplane k f = Ok wp ->
    add_toPending k wp obj = Raise e ->
    alignment_degraded k obj.

(** What one edge contributes to the geometry and to [edge_count]: every
    point of its discretization but the first, and 1 when the
    discretization is not empty; nothing when it raises. *)
Definition edge_commands (k : Kernel) (e : EdgeH) : Geometry :=
  match discretize k e with
  | Ok (_ :: rest) => map (fun p => LineTo (vx p) (vy p)) rest
  | _ => []
  end.

Definition edge_counted (k : Kernel) (e : EdgeH) : nat :=
  match discretize k e with
  | Ok (_ :: _) => 1
  | _ => 0
  end.

(** The number of points an edge appends to its subpath. *)
Definition appended (k : Kernel) (e : EdgeH) : nat := length (edge_commands k e).

Definition has_edges (k : Kernel) (w : WireH) : bool :=
  match Edges k w with
  | Ok (_ :: _) => true
  | _ => false
  end.

(** The commands of one loop: the move to the start point of its first
    edge, then the contribution of each edge in order. *)
Definition is_loop_block (k : Kernel) (w : WireH) (b : Geometry) : Prop :=
  exists e0 es s,
    Edges k w = Ok (e0 :: es) /\
    startPoint k e0 = Ok s /\
    b = MoveTo (vx s) (vy s) :: concat (map (edge_commands k) (e0 :: es)).

Definition is_line (c : Command) : bool :=
  match c with
  | LineTo _ _ => true
  | MoveTo _ _ => false
  end.


(** The triangle with a middle edge that cannot be discretized. *)
Definition triangle_broken : Mock := {|
  mock_solids := [7%nat];
  mock_shells := [];
  mock_faces := [];
  mock_areas := [];
  mock_wires := [[0; 1; 2]%nat];
  mock_edges := [segment (V 0 0) (V 2 0); broken_edge (V 2 0);
                 segment (V 0 4) (V 0 0)]
|}.

(** A loop without edges between two copies of a good loop. *)
Definition with_empty_loop : Mock := {|
  mock_solids := [7%nat];
  mock_shells := [];
  mock_faces := [];
  mock_areas := [];
  mock_wires := [[0; 1]; []; [0; 1]]%nat;
  mock_edges := [segment (V 0 0) (V 2 3); segment (V 2 3) (V 0 0)]
|}.

(** The subpath [sp] of the loop [w]: the start point and the points the
    edges append. *)
Definition subpath_of_loop (k : Kernel) (w : WireH) (sp : list (Q * Q)) : Prop :=
  exists es,
    Edges k w = Ok es /\
    length sp = S (list_sum (map (appended k) es)) /\
    ((2 <= length sp)%nat <->
     exists e p q ps, In e es /\ discretize k e = Ok (p :: q :: ps)).

(** The vertical mirror of the band [min_y, max_y]: y -> min_y + max_y - y. *)
Definition mirror_y (min_y max_y : Q) : Matrix := mkMatrix 1 (-1) 0 (min_y + max_y).

(** [r] bounds the points [ps] and each of its sides is touched. *)
Definition is_bbox (ps : list (Q * Q)) (r : Q * Q * Q * Q) : Prop :=
  let '(a, b, c, d) := r in
  (forall p, In p ps -> a <= fst p /\ fst p <= c /\ b <= snd p /\ snd p <= d) /\
  (exists p, In p ps /\ fst p == a) /\
  (exists p, In p ps /\ snd p == b) /\
  (exists p, In p ps /\ fst p == c) /\
  (exists p, In p ps /\ snd p == d).

(* ------------------------------------------------------------------ *)
(** ** The assembly, loop by loop *)

(** A loop the assembly can enter: its edges are listed and, when there
    are any, the first one has a start point. *)
Definition evaluable_wire (k : Kernel) (w : WireH) : Prop :=
  exists es,
    Edges k w = Ok es /\
    forall e0 rest, es = e0 :: rest -> exists s, startPoint k e0 = Ok s.

(** What one loop contributes to the geometry, to [edge_count], and the
    number of its edges. *)
Definition loop_commands (k : Kernel) (w : WireH) : Geometry :=
  match Edges k w with
  | Ok (e0 :: es) =>
      match startPoint k e0 with
      | Ok s => MoveTo (vx s) (vy s) :: concat (map (edge_commands k) (e0 :: es))
      | Raise _ => []
      end
  | _ => []
  end.

Definition loop_counted (k : Kernel) (w : WireH) : nat :=
  match Edges k w with
  | Ok es => list_sum (map (edge_counted k) es)
  | Raise _ => 0
  end.

Definition loop_edges (k : Kernel) (w : WireH) : nat :=
  match Edges k w with
  | Ok es => length es
  | Raise _ => 0
  end.

(** The faces in non-increasing order of area. *)
Definition area_ge (k : Kernel) (f g : FaceH) : Prop :=
  exists a b, Area k f = Ok a /\ Area k g = Ok b /\ b <= a.

(* ------------------------------------------------------------------ *)
(** ** The temporary file (lines 43-45 and 177-183)

    The paths that exist, and the calls of [tempfile] and [os] with their
    outcomes.  [during_import] is what becomes of the files while the outer
    [try] runs. *)

Definition FileSystem := list string.

Record OS : Type := mkOS {
  os_CQ_AVAILABLE : bool;
  NamedTemporaryFile : res string;            (* creates the file; tmp.name *)
  os_write : list byte -> res unit;           (* tmp.write, and the close of the with *)
  during_import : FileSystem -> FileSystem;
  os_remove : string -> res unit              (* os.remove *)
}.

(** [os.path.exists] *)
Definition path_exists (p : string) (fs : FileSystem) : bool :=
  existsb (String.eqb p) fs.

Definition remove_path (p : string) (fs : FileSystem) : FileSystem :=
  filter (fun q => negb (String.eqb p q)) fs.

(** Lines 177-183, the [finally] clause. *)
Definition cleanup (os : OS) (tmp_path : string) (fs : FileSystem) : FileSystem :=
  if path_exists tmp_path fs then
    match os_remove os tmp_path with
    | Ok _ => remove_path tmp_path fs
    | Raise _ => fs
    end
  else fs.

(** Lines 37-183 with the files: the value returned or the exception
    raised, and the files left behind.  The file is created with
    [delete=False], so leaving the [with] does not remove it. *)
Definition get_doc_items_os (os : OS) (k : Kernel) (self : StepImporter)
           (fs : FileSystem) : res (option ImportPayload) * FileSystem :=
  if negb (os_CQ_AVAILABLE os) then (Ok None, fs)
  else
    match NamedTemporaryFile os with
    | Raise e => (Raise e, fs)
    | Ok tmp_path =>
        let fs1 := tmp_path :: fs in
        match os_write os (raw_data self) with
        | Raise e => (Raise e, fs1)
        | Ok _ =>
            (try_except (import_body k self) (fun _ => Ok None),
             cleanup os tmp_path (during_import os fs1))
        end
    end.

(** An operating system on which everything works, one on which the
    removal is refused, and one on which the write fails. *)
Definition working_os : OS :=
  mkOS true (Ok "/tmp/tmpq3.step"%string) (fun _ => Ok tt) (fun fs => fs) (fun _ => Ok tt).

Definition locked_os : OS :=
  mkOS true (Ok "/tmp/tmpq3.step"%string) (fun _ => Ok tt) (fun fs => fs)
       (fun _ => Raise "PermissionError"%string).

Definition full_disk_os : OS :=
  mkOS true (Ok "/tmp/tmpq3.step"%string)
       (fun _ => Raise "OSError: [Errno 28] No space left on device"%string)
       (fun fs => fs) (fun _ => Ok tt).

(** A projection whose loops have no edges. *)
Definition hollow : Mock := {|
  mock_solids := [7%nat];
  mock_shells := [];
  mock_faces := [];
  mock_areas := [];
  mock_wires := [[]; []];
  mock_edges := []
|}.

(* ------------------------------------------------------------------ *)
(** ** The normalisation in binary64 (lines 135-156)

    The same computation on IEEE 754 binary64 values, the floats of
    Python, with the operations of the standard library's specification of
    floating-point arithmetic at precision 53 and maximal exponent 1024.
    [Geometry] and [Matrix] are modelled from the spec as above. *)

Module B64.

Definition float := spec_float.

Definition prec : Z := 53.
Definition emax : Z := 1024.

Definition fadd (a b : float) : float := SFadd prec emax a b.
Definition fsub (a b : float) : float := SFsub prec emax a b.
Definition fmul (a b : float) : float := SFmul prec emax a b.
Definition fdiv (a b : float) : float := SFdiv prec emax a b.
Definition fopp (a : float) : float := SFopp a.
Definition fltb (a b : float) : bool := SFltb a b.
Definition feqb (a b : float) : bool := SFeqb a b.

(** 0.0, 1.0 and -1.0 *)
Definition f0 : float := S754_zero false.
Definition f1 : float := S754_finite false 4503599627370496 (-52).
Definition fm1 : float := S754_finite true 4503599627370496 (-52).

Inductive Command : Type :=
| MoveTo (x y : float)
| LineTo (x y : float).

Definition Geometry := list Command.

Definition end_point (c : Command) : float * float :=
  match c with
  | MoveTo x y => (x, y)
  | LineTo x y => (x, y)
  end.

Definition points (geo : Geometry) : list (float * float) := map end_point geo.

Definition fmin (a b : float) : float := if fltb b a then b else a.
Definition fmax (a b : float) : float := if fltb a b then b else a.

Definition grow_rect (r : float * float * float * float) (p : float * float)
  : float * float * float * float :=
  let '(min_x, min_y, max_x, max_y) := r in
  (fmin min_x (fst p), fmin min_y (snd p), fmax max_x (fst p), fmax max_y (snd p)).

Definition rect_of_points (ps : list (float * float)) : float * float * float * float :=
  match ps with
  | [] => (f0, f0, f0, f0)
  | p :: ps' => fold_left grow_rect ps' (fst p, snd p, fst p, snd p)
  end.

Definition rect (geo : Geometry) : float * float * float * float :=
  rect_of_points (points geo).

Record Matrix : Type := mkMatrix { m_sx : float; m_sy : float; m_tx : float; m_ty : float }.

Definition translation (tx ty : float) : Matrix := mkMatrix f1 f1 tx ty.
Definition scale (sx sy : float) : Matrix := mkMatrix sx sy f0 f0.

Definition matmul (a b : Matrix) : Matrix :=
  mkMatrix (fmul (m_sx a) (m_sx b)) (fmul (m_sy a) (m_sy b))
           (fadd (fmul (m_sx a) (m_tx b)) (m_tx a))
           (fadd (fmul (m_sy a) (m_ty b)) (m_ty a)).

Definition apply_matrix (m : Matrix) (p : float * float) : float * float :=
  (fadd (fmul (m_sx m) (fst p)) (m_tx m), fadd (fmul (m_sy m) (snd p)) (m_ty m)).

Definition transform_command (m : Matrix) (c : Command) : Command :=
  match c with
  | MoveTo x y => let '(x', y') := apply_matrix m (x, y) in MoveTo x' y'
  | LineTo x y => let '(x', y') := apply_matrix m (x, y) in LineTo x' y'
  end.

Definition transform (m : Matrix) (geo : Geometry) : Geometry :=
  map (transform_command m) geo.

(** [a / b] raises [ZeroDivisionError] when [b] is zero. *)
Definition py_div (a b : float) : res float :=
  if feqb b f0 then Raise "ZeroDivisionError"%string else Ok (fdiv a b).

(** Lines 135-137, 149-156: [norm_geo]. *)
Definition normalize (geo : Geometry) : res Geometry :=
  let '(min_x, min_y, max_x, max_y) := rect geo in
  let width := fsub max_x min_x in
  let height := fsub max_y min_y in
  let norm_geo := transform (translation (fopp min_x) (fopp min_y)) geo in
  norm_geo <- (if fltb f0 width && fltb f0 height then
                 ix <- py_div f1 width ;;
                 iy <- py_div f1 height ;;
                 Ok (transform (scale ix iy) norm_geo)
               else Ok norm_geo) ;;
  Ok (transform (matmul (translation f0 f1) (scale f1 fm1)) norm_geo).





End B64.

(* ================================================================== *)
(** * Properties *)

(** ** The error monad *)

Lemma bind_ok {A B : Type} (r : res A) (f : A -> res B) (b : B) :
  bind r f = Ok b -> exists a, r = Ok a /\ f a = Ok b.
Proof.
  destruct r as [a | e]; simpl; intros H; [exists a; auto | discriminate].
Qed.

Lemma try_except_total {A : Type} (body : res A) (a0 : A) :
  exists a, try_except body (fun _ => Ok a0) = Ok a.
Proof.
  destruct body as [a | e]; simpl; eauto.
Qed.

Lemma map_res_ok {X Y : Type} (f : X -> res Y) (xs : list X) :
  forall ys, map_res f xs = Ok ys -> Forall2 (fun x y => f x = Ok y) xs ys.
Proof.
  induction xs as [| x xs IH]; simpl; intros ys H.
  - inversion H; constructor.
  - destruct (f x) as [y | e] eqn:Hx; simpl in H; [| discriminate].
    destruct (map_res f xs) as [ys' | e] eqn:Hxs; simpl in H; [| discriminate].
    inversion H; subst. constructor; auto.
Qed.

Lemma map_res_total {X Y : Type} (f : X -> res Y) (xs : list X) :
  (forall x, In x xs -> exists y, f x = Ok y) -> exists ys, map_res f xs = Ok ys.
Proof.
  induction xs as [| x xs IH]; simpl; intros H.
  - eauto.
  - destruct (H x (or_introl eq_refl)) as [y Hy].
    destruct IH as [ys Hys]; [intros; apply H; auto |].
    rewrite Hy, Hys. simpl. eauto.
Qed.

Lemma map_res_raise {X Y : Type} (f : X -> res Y) (xs : list X) (x : X) (e : exn) :
  In x xs -> f x = Raise e -> exists e', map_res f xs = Raise e'.
Proof.
  induction xs as [| x0 xs IH]; simpl; intros Hin Hx; [contradiction |].
  destruct (f x0) as [y | e0] eqn:H0; simpl; [| eauto].
  destruct Hin as [-> | Hin]; [congruence |].
  destruct (IH Hin Hx) as [e' He']. rewrite He'. simpl. eauto.
Qed.

(** ** Object detection (lines 54-66) *)

Lemma target_objects_solids k model s ss :
  solids k model = Ok (s :: ss) -> target_objects k model = Ok (s :: ss).
Proof.
  intros H. unfold target_objects. rewrite H. reflexivity.
Qed.

Lemma target_objects_shells k model s ss :
  solids k model = Ok [] -> shells k model = Ok (s :: ss) ->
  target_objects k model = Ok (s :: ss).
Proof.
  intros H1 H2. unfold target_objects. rewrite H1. simpl. rewrite H2. reflexivity.
Qed.

Lemma target_objects_faces k model fs :
  solids k model = Ok [] -> shells k model = Ok [] -> faces k model = Ok fs ->
  target_objects k model = Ok fs.
Proof.
  intros H1 H2 H3. unfold target_objects. rewrite H1. simpl. rewrite H2. simpl.
  rewrite H3. destruct fs; reflexivity.
Qed.

(** What [get_doc_items] is once the bytes are loaded and the first target
    object is known. *)
Lemma get_doc_items_primary h k self path model primary rest :
  CQ_AVAILABLE h = true ->
  tmp_write h (raw_data self) = Ok path ->
  importStep k (raw_data self) = Ok model ->
  target_objects k model = Ok (primary :: rest) ->
  get_doc_items h k self =
  try_except (projection <- choose_projection k model primary ;;
              convert k self projection)
             (fun _ => Ok None).
Proof.
  intros Hcq Htmp Hm Ht. unfold get_doc_items, import_body, load_projection.
  rewrite Hcq, Htmp, Hm. simpl. rewrite Ht. simpl.
  destruct (choose_projection k model primary); reflexivity.
Qed.

(** C4. The primary object is the first solid when the model has solids,
    else the first shell when it has shells, else the first loose face; a
    model with none of them makes the import return [None]. *)
Theorem primary_object_precedence h k self path model :
  CQ_AVAILABLE h = true ->
  tmp_write h (raw_data self) = Ok path ->
  importStep k (raw_data self) = Ok model ->
  (forall s ss, solids k model = Ok (s :: ss) ->
     get_doc_items h k self =
     try_except (projection <- choose_projection k model s ;;
                 convert k self projection) (fun _ => Ok None)) /\
  (forall s ss, solids k model = Ok [] -> shells k model = Ok (s :: ss) ->
     get_doc_items h k self =
     try_except (projection <- choose_projection k model s ;;
                 convert k self projection) (fun _ => Ok None)) /\
  (forall f fs, solids k model = Ok [] -> shells k model = Ok [] ->
     faces k model = Ok (f :: fs) ->
     get_doc_items h k self =
     try_except (projection <- choose_projection k model f ;;
                 convert k self projection) (fun _ => Ok None)) /\
  (solids k model = Ok [] -> shells k model = Ok [] -> faces k model = Ok [] ->
     get_doc_items h k self = Ok None).
Proof.
  intros Hcq Htmp Hm. repeat split.
  - intros s ss Hs. eapply get_doc_items_primary; eauto.
    eapply target_objects_solids; eauto.
  - intros s ss Hs Hsh. eapply get_doc_items_primary; eauto.
    eapply target_objects_shells; eauto.
  - intros f fs Hs Hsh Hf. eapply get_doc_items_primary; eauto.
    eapply target_objects_faces; eauto.
  - intros Hs Hsh Hf. unfold get_doc_items, import_body, load_projection.
    rewrite Hcq, Htmp, Hm. simpl.
    rewrite (target_objects_faces k model [] Hs Hsh Hf). reflexivity.
Qed.

Lemma primary_object_precedence_witness :
  get_doc_items good_host (mock_kernel plate) demo_importer =
    try_except (projection <- choose_projection (mock_kernel plate) 0%nat 7%nat ;;
                convert (mock_kernel plate) demo_importer projection)
               (fun _ => Ok None) /\
  get_doc_items good_host (mock_kernel shell_model) demo_importer =
    try_except (projection <- choose_projection (mock_kernel shell_model) 0%nat 8%nat ;;
                convert (mock_kernel shell_model) demo_importer projection)
               (fun _ => Ok None) /\
  get_doc_items good_host (mock_kernel face_model) demo_importer =
    try_except (projection <- choose_projection (mock_kernel face_model) 0%nat 9%nat ;;
                convert (mock_kernel face_model) demo_importer projection)
               (fun _ => Ok None) /\
  get_doc_items good_host (mock_kernel empty_model) demo_importer = Ok None.
Proof.
  split; [| split; [| split]].
  - destruct (primary_object_precedence good_host (mock_kernel plate) demo_importer
                "/tmp/tmpq3.step"%string 0%nat eq_refl eq_refl eq_refl) as (H & _).
    apply (H 7%nat []). reflexivity.
  - destruct (primary_object_precedence good_host (mock_kernel shell_model) demo_importer
                "/tmp/tmpq3.step"%string 0%nat eq_refl eq_refl eq_refl) as (_ & H & _).
    apply (H 8%nat [18%nat]); reflexivity.
  - destruct (primary_object_precedence good_host (mock_kernel face_model) demo_importer
                "/tmp/tmpq3.step"%string 0%nat eq_refl eq_refl eq_refl) as (_ & _ & H & _).
    apply (H 9%nat [19%nat]); reflexivity.
  - destruct (primary_object_precedence good_host (mock_kernel empty_model) demo_importer
                "/tmp/tmpq3.step"%string 0%nat eq_refl eq_refl eq_refl) as (_ & _ & _ & H).
    apply H; reflexivity.
Defined.

(** ** Face selection (lines 76-81) *)

Lemma sort_desc_nil l : sort_desc l = [] -> l = [].
Proof.
  destruct l as [| x l]; simpl; [reflexivity |].
  destruct (sort_desc l) as [| y s]; simpl; [discriminate |].
  destruct (Qle_bool (snd y) (snd x)); discriminate.
Qed.

Lemma first_largest_bound keyed f :
  first_largest keyed f -> forall g, In g keyed -> snd g <= snd f.
Proof.
  intros (pre & post & -> & Hpre & Hpost) g Hin.
  apply in_app_or in Hin. destruct Hin as [Hin | [<- | Hin]].
  - apply Qlt_le_weak. auto.
  - apply Qle_refl.
  - auto.
Qed.

(** The head of the sorted list is the first element of largest key. *)
Lemma sort_desc_head l :
  forall f rest, sort_desc l = f :: rest -> first_largest l f.
Proof.
  induction l as [| x l IH]; simpl; intros f rest H; [discriminate |].
  destruct (sort_desc l) as [| y s] eqn:Hs.
  - apply sort_desc_nil in Hs. subst l. simpl in H. inversion H; subst.
    exists [], []. repeat split; simpl; intros g [].
  - specialize (IH y s eq_refl). simpl in H.
    destruct (Qle_bool (snd y) (snd x)) eqn:Hle.
    + inversion H; subst. apply Qle_bool_iff in Hle.
      exists [], l. repeat split; [intros g [] |].
      intros g Hg. eapply Qle_trans; [| exact Hle].
      eapply first_largest_bound; eauto.
    + inversion H; subst.
      assert (Hlt : snd x < snd f).
      { apply Qnot_le_lt. intros Hc. apply Qle_bool_iff in Hc. congruence. }
      destruct IH as (pre & post & -> & Hpre & Hpost).
      exists (x :: pre), post. repeat split; auto.
      intros g [<- | Hg]; auto.
Qed.

Lemma combine_keys {X Y : Type} (R : X -> Y -> Prop) xs ys :
  Forall2 R xs ys ->
  map fst (combine xs ys) = xs /\
  Forall (fun p => R (fst p) (snd p)) (combine xs ys).
Proof.
  induction 1 as [| x y xs ys Hxy H [IH1 IH2]]; simpl.
  - split; constructor.
  - split; [f_equal; auto | constructor; auto].
Qed.

Lemma first_largest_face_of_keyed k fs keys f a :
  Forall2 (fun x y => Area k x = Ok y) fs keys ->
  first_largest (combine fs keys) (f, a) ->
  first_largest_face k fs f.
Proof.
  intros HF (pre & post & Heq & Hpre & Hpost).
  destruct (combine_keys _ _ _ HF) as [Hfst Hall].
  rewrite Heq in Hfst, Hall. rewrite Forall_forall in Hall.
  exists (map fst pre), (map fst post), a. repeat split.
  - rewrite <- Hfst. rewrite map_app. reflexivity.
  - apply (Hall (f, a)). apply in_or_app. right. left. reflexivity.
  - intros g Hg. apply in_map_iff in Hg. destruct Hg as (p & <- & Hp).
    exists (snd p). split; [| exact (Hpre p Hp)].
    apply (Hall p). apply in_or_app. left. exact Hp.
  - intros g Hg. apply in_map_iff in Hg. destruct Hg as (p & <- & Hp).
    exists (snd p). split; [| exact (Hpost p Hp)].
    apply (Hall p). apply in_or_app. right. right. exact Hp.
Qed.

Lemma first_largest_face_unique k fs f f' :
  first_largest_face k fs f -> first_largest_face k fs f' -> f = f'.
Proof.
  intros (pre & post & a & Hfs & Ha & Hpre & Hpost)
         (pre' & post' & a' & Hfs' & Ha' & Hpre' & Hpost').
  subst fs. revert pre' Hfs' Hpre'.
  induction pre as [| x pre IH]; intros pre' Hfs' Hpre'.
  - destruct pre' as [| x' pre']; simpl in Hfs'; inversion Hfs'; subst; [reflexivity |].
    exfalso. destruct (Hpre' x' (or_introl eq_refl)) as (b & Hb & Hlt).
    assert (a = b) by congruence. subst b.
    assert (Hin : In f' (pre' ++ f' :: post')) by (apply in_or_app; right; left; reflexivity).
    destruct (Hpost f' Hin) as (b' & Hb' & Hle).
    assert (a' = b') by congruence. subst b'.
    apply (Qlt_irrefl a). eapply Qlt_le_trans; eauto.
  - destruct pre' as [| x' pre']; simpl in Hfs'; inversion Hfs'; subst.
    + exfalso. destruct (Hpre f' (or_introl eq_refl)) as (b & Hb & Hlt).
      assert (a' = b) by congruence. subst b.
      assert (Hin : In f (pre ++ f :: post)) by (apply in_or_app; right; left; reflexivity).
      destruct (Hpost' f Hin) as (b' & Hb' & Hle).
      assert (a = b') by congruence. subst b'.
      apply (Qlt_irrefl a'). eapply Qlt_le_trans; eauto.
    + apply (IH (fun g Hg => Hpre g (or_intror Hg)) pre' H1).
      intros g Hg. apply Hpre'. right. exact Hg.
Qed.

Lemma largest_planar_face_some k obj f :
  largest_planar_face k obj = Ok (Some f) ->
  exists fs, faces_PLANE k obj = Ok fs /\ first_largest_face k fs f.
Proof.
  unfold largest_planar_face, sort_by_area. intros H.
  apply bind_ok in H. destruct H as (fs & Hfs & H).
  exists fs. split; [exact Hfs |].
  destruct fs as [| f0 fs']; [discriminate |].
  apply bind_ok in H. destruct H as (sorted & Hsorted & H).
  apply bind_ok in Hsorted. destruct Hsorted as (keys & Hkeys & Hsorted).
  apply map_res_ok in Hkeys.
  remember (combine (f0 :: fs') keys) as keyed eqn:Hkeyed.
  assert (Hs : sorted = map fst (sort_desc keyed)) by congruence.
  subst sorted. clear Hsorted.
  destruct (sort_desc keyed) as [| [f1 a] rest] eqn:Hsort; simpl in H; [discriminate |].
  assert (f1 = f) by congruence. subst f1 keyed.
  eapply first_largest_face_of_keyed; eauto.
  eapply sort_desc_head; eauto.
Qed.

Lemma largest_planar_face_exists k obj fs :
  faces_PLANE k obj = Ok fs -> fs <> [] ->
  (forall g, In g fs -> exists a, Area k g = Ok a) ->
  exists f, largest_planar_face k obj = Ok (Some f).
Proof.
  intros Hfs Hne Hall. unfold largest_planar_face, sort_by_area. rewrite Hfs. simpl.
  destruct fs as [| f0 fs']; [congruence |].
  destruct (map_res_total (Area k) (f0 :: fs') Hall) as [keys Hkeys].
  rewrite Hkeys. unfold bind.
  remember (combine (f0 :: fs') keys) as keyed eqn:Hkeyed.
  destruct (sort_desc keyed) as [| [f1 a] rest] eqn:Hsort.
  - apply sort_desc_nil in Hsort. apply map_res_ok in Hkeys.
    inversion Hkeys; subst. discriminate.
  - simpl. eauto.
Qed.

(** C2. The face used for the alignment is a planar face of the object
    whose area is at least the area of every planar face of the object;
    among faces of that area it is the first in the kernel's order, so the
    choice is a function of the input; an object without planar faces
    selects no face. *)
Theorem largest_planar_face_spec k obj :
  (faces_PLANE k obj = Ok [] -> largest_planar_face k obj = Ok None) /\
  (forall fs, faces_PLANE k obj = Ok fs -> fs <> [] ->
     (forall g, In g fs -> exists a, Area k g = Ok a) ->
     exists f, largest_planar_face k obj = Ok (Some f)) /\
  (forall f, largest_planar_face k obj = Ok (Some f) ->
     exists fs a,
       faces_PLANE k obj = Ok fs /\ In f fs /\ Area k f = Ok a /\
       (forall g, In g fs -> exists b, Area k g = Ok b /\ b <= a) /\
       first_largest_face k fs f /\
       (forall f', first_largest_face k fs f' -> f' = f)).
Proof.
  split; [| split].
  - intros H. unfold largest_planar_face. rewrite H. reflexivity.
  - apply largest_planar_face_exists.
  - intros f H. destruct (largest_planar_face_some k obj f H) as (fs & Hfs & Hfl).
    pose proof Hfl as (pre & post & a & Heq & Ha & Hpre & Hpost).
    exists fs, a. repeat split; auto.
    + subst fs. apply in_or_app. right. left. reflexivity.
    + intros g Hg. subst fs. apply in_app_or in Hg. destruct Hg as [Hg | [<- | Hg]].
      * destruct (Hpre g Hg) as (b & Hb & Hlt). exists b. split; auto.
        apply Qlt_le_weak. exact Hlt.
      * exists a. split; auto. apply Qle_refl.
      * auto.
    + intros f' Hf'. eapply first_largest_face_unique; eauto.
Qed.

Lemma largest_planar_face_spec_witness :
  largest_planar_face (mock_kernel plate) 7%nat = Ok (Some 1%nat) /\
  exists fs a,
    faces_PLANE (mock_kernel plate) 7%nat = Ok fs /\ In 1%nat fs /\
    Area (mock_kernel plate) 1%nat = Ok a /\
    (forall g, In g fs -> exists b, Area (mock_kernel plate) g = Ok b /\ b <= a) /\
    first_largest_face (mock_kernel plate) fs 1%nat /\
    (forall f', first_largest_face (mock_kernel plate) fs f' -> f' = 1%nat).
Proof.
  split; [reflexivity |].
  apply (largest_planar_face_spec (mock_kernel plate) 7%nat). reflexivity.
Defined.

(** ** Alignment planning (lines 69-94) *)

Lemma auto_align_degraded k obj :
  alignment_degraded k obj -> auto_align k obj = Ok None.
Proof.
  unfold auto_align, align_to_largest_face.
  intros [Hf | e Hf | fs f e Hf Hin Ha | f e Hl Hw | f wp e Hl Hw Hp].
  - unfold largest_planar_face. rewrite Hf. reflexivity.
  - unfold largest_planar_face. rewrite Hf. reflexivity.
  - unfold largest_planar_face, sort_by_area. rewrite Hf. simpl.
    destruct fs as [| f0 fs']; [contradiction |].
    destruct (map_res_raise (Area k) (f0 :: fs') f e Hin Ha) as [e' He'].
    rewrite He'. reflexivity.
  - rewrite Hl. simpl. rewrite Hw. reflexivity.
  - rewrite Hl. simpl. rewrite Hw. simpl. rewrite Hp. reflexivity.
Qed.

(** C3. The alignment stage never raises; when the object has no planar
    face, or a step of the face selection, of the plane derivation or of the
    projection raises, the import goes on with the model's default
    projection [model.toPending()]. *)
Theorem alignment_falls_back h k self path model obj rest :
  CQ_AVAILABLE h = true ->
  tmp_write h (raw_data self) = Ok path ->
  importStep k (raw_data self) = Ok model ->
  target_objects k model = Ok (obj :: rest) ->
  (exists p, auto_align k obj = Ok p) /\
  (alignment_degraded k obj ->
     auto_align k obj = Ok None /\
     choose_projection k model obj = toPending k model /\
     get_doc_items h k self =
       try_except (projection <- toPending k model ;; convert k self projection)
                  (fun _ => Ok None)).
Proof.
  intros Hcq Htmp Hm Ht. split.
  - unfold auto_align. apply try_except_total.
  - intros Hd. pose proof (auto_align_degraded k obj Hd) as Ha.
    assert (Hc : choose_projection k model obj = toPending k model).
    { unfold choose_projection. rewrite Ha. reflexivity. }
    repeat split; auto.
    rewrite (get_doc_items_primary h k self path model obj rest Hcq Htmp Hm Ht).
    rewrite Hc. reflexivity.
Qed.

Lemma alignment_falls_back_witness :
  auto_align (mock_kernel plate_bad_area) 7%nat = Ok None /\
  choose_projection (mock_kernel plate_bad_area) 0%nat 7%nat = Ok 0%nat /\
  get_doc_items good_host (mock_kernel plate_bad_area) demo_importer =
    try_except (projection <- toPending (mock_kernel plate_bad_area) 0%nat ;;
                convert (mock_kernel plate_bad_area) demo_importer projection)
               (fun _ => Ok None).
Proof.
  destruct (alignment_falls_back good_host (mock_kernel plate_bad_area) demo_importer
              "/tmp/tmpq3.step"%string 0%nat 7%nat [] eq_refl eq_refl eq_refl eq_refl)
    as (_ & H).
  apply H.
  apply (area_raises (mock_kernel plate_bad_area) 7%nat [0; 1; 2]%nat 1%nat
           "Standard_Failure"%string); [reflexivity | simpl; auto | reflexivity].
Defined.

(** ** Path assembly (lines 97-126) *)

Lemma for_each_app {X S : Type} (body : X -> S -> res S) (xs ys : list X) (s : S) :
  for_each body (xs ++ ys) s = s' <- for_each body xs s ;; for_each body ys s'.
Proof.
  revert s. induction xs as [| x xs IH]; simpl; intros s; [reflexivity |].
  destruct (body x s) as [s' | e]; simpl; auto.
Qed.

Lemma for_each_raise {X S : Type} (body : X -> S -> res S) (xs : list X) (x : X) :
  In x xs -> (forall s, exists e, body x s = Raise e) ->
  forall s, exists e, for_each body xs s = Raise e.
Proof.
  induction xs as [| x0 xs IH]; simpl; intros Hin Hx s; [contradiction |].
  destruct (body x0 s) as [s' | e] eqn:H0; simpl; [| eauto].
  destruct Hin as [-> | Hin].
  - destruct (Hx s) as [e He]. congruence.
  - apply IH; auto.
Qed.

Lemma line_to_all_app (ps : list Vector) :
  forall geo, line_to_all geo ps = geo ++ map (fun p => LineTo (vx p) (vy p)) ps.
Proof.
  unfold line_to_all.
  induction ps as [| p ps IH]; simpl; intros geo.
  - rewrite app_nil_r. reflexivity.
  - rewrite IH. unfold line_to. rewrite <- app_assoc. reflexivity.
Qed.

(** An iteration over an edge never raises. *)
Lemma edge_body_eq k e geo n :
  edge_body k e (geo, n) = Ok (geo ++ edge_commands k e, (edge_counted k e + n)%nat).
Proof.
  unfold edge_body, edge_commands, edge_counted.
  destruct (discretize k e) as [[| p ps] | err]; simpl.
  - rewrite app_nil_r. reflexivity.
  - rewrite line_to_all_app. reflexivity.
  - rewrite app_nil_r. reflexivity.
Qed.

Lemma for_each_edges k es :
  forall geo n,
    for_each (edge_body k) es (geo, n) =
    Ok (geo ++ concat (map (edge_commands k) es),
        (list_sum (map (edge_counted k) es) + n)%nat).
Proof.
  induction es as [| e es IH]; intros geo n.
  - simpl. rewrite app_nil_r. reflexivity.
  - cbn [for_each]. rewrite edge_body_eq. cbn [bind]. rewrite IH.
    cbn [map concat]. rewrite <- app_assoc.
    change (list_sum (edge_counted k e :: map (edge_counted k) es))
      with (edge_counted k e + list_sum (map (edge_counted k) es))%nat.
    f_equal. f_equal. lia.
Qed.

Lemma wire_body_no_edges k w st :
  Edges k w = Ok [] -> wire_body k w st = Ok st.
Proof.
  intros H. destruct st as [geo n]. unfold wire_body. rewrite H. reflexivity.
Qed.

Lemma wire_body_edges k w e0 es s geo n :
  Edges k w = Ok (e0 :: es) -> startPoint k e0 = Ok s ->
  wire_body k w (geo, n) =
  Ok (geo ++ MoveTo (vx s) (vy s) :: concat (map (edge_commands k) (e0 :: es)),
      (list_sum (map (edge_counted k) (e0 :: es)) + n)%nat).
Proof.
  intros He Hs. unfold wire_body. rewrite He. cbn [bind]. rewrite Hs. cbn [bind].
  rewrite for_each_edges. unfold move_to. rewrite <- app_assoc. reflexivity.
Qed.

Lemma wire_body_start_raises k w e0 es err st :
  Edges k w = Ok (e0 :: es) -> startPoint k e0 = Raise err ->
  wire_body k w st = Raise err.
Proof.
  intros He Hs. destruct st as [geo n]. unfold wire_body.
  rewrite He. cbn [bind]. rewrite Hs. reflexivity.
Qed.

(** A wire iteration that returns has appended nothing (no edges) or the
    block of its loop. *)
Lemma wire_body_ok k w geo n geo' n' :
  wire_body k w (geo, n) = Ok (geo', n') ->
  (has_edges k w = false /\ geo' = geo) \/
  (has_edges k w = true /\ exists b, is_loop_block k w b /\ geo' = geo ++ b).
Proof.
  unfold wire_body, has_edges. intros H.
  destruct (Edges k w) as [[| e0 es] | err] eqn:He; cbn [bind] in H.
  - left. inversion H. auto.
  - right. split; [reflexivity |].
    destruct (startPoint k e0) as [s | err] eqn:Hs; cbn [bind] in H; [| discriminate].
    rewrite for_each_edges in H. inversion H; subst.
    exists (MoveTo (vx s) (vy s) :: concat (map (edge_commands k) (e0 :: es))).
    split; [exists e0, es, s; auto |].
    unfold move_to. rewrite <- app_assoc. reflexivity.
  - discriminate.
Qed.

Lemma for_each_wires_ok k ws :
  forall geo n geo' n',
    for_each (wire_body k) ws (geo, n) = Ok (geo', n') ->
    exists blocks,
      Forall2 (is_loop_block k) (filter (has_edges k) ws) blocks /\
      geo' = geo ++ concat blocks.
Proof.
  induction ws as [| w ws IH]; intros geo n geo' n' H.
  - simpl in H. inversion H; subst. exists []. split; [constructor |].
    simpl. rewrite app_nil_r. reflexivity.
  - cbn [for_each] in H. apply bind_ok in H. destruct H as ([g1 n1] & Hw & H).
    apply wire_body_ok in Hw. apply IH in H. destruct H as (blocks & HF & ->).
    destruct Hw as [[Hn ->] | [Hy (b & Hb & ->)]].
    + exists blocks. simpl. rewrite Hn. auto.
    + exists (b :: blocks). simpl. rewrite Hy. split; [constructor; auto |].
      rewrite <- app_assoc. reflexivity.
Qed.

(** Discretization failures never make the assembly raise: it returns as
    soon as every loop lists its edges and every first edge has a start
    point. *)
Lemma for_each_wires_total k ws :
  (forall w, In w ws -> exists es, Edges k w = Ok es /\
     forall e0 rest, es = e0 :: rest -> exists s, startPoint k e0 = Ok s) ->
  forall st, exists st', for_each (wire_body k) ws st = Ok st'.
Proof.
  induction ws as [| w ws IH]; intros Hall st.
  - simpl. eauto.
  - cbn [for_each].
    destruct (Hall w (or_introl eq_refl)) as (es & He & Hs).
    destruct st as [geo n]. destruct es as [| e0 rest].
    + rewrite (wire_body_no_edges k w (geo, n) He). cbn [bind].
      apply IH. intros; apply Hall; right; auto.
    + destruct (Hs e0 rest eq_refl) as [s Hs'].
      rewrite (wire_body_edges k w e0 rest s geo n He Hs'). cbn [bind].
      apply IH. intros; apply Hall; right; auto.
Qed.

(** ** Normalisation (lines 135-156) *)

Lemma Qpos_bool_iff a : Qpos_bool a = true <-> 0 < a.
Proof.
  unfold Qpos_bool. rewrite negb_true_iff. split.
  - intros H. apply Qnot_le_lt. intros Hc. apply Qle_bool_iff in Hc. congruence.
  - intros H. destruct (Qle_bool a 0) eqn:Hle; [| reflexivity].
    apply Qle_bool_iff in Hle. exfalso. apply (Qlt_irrefl 0).
    eapply Qlt_le_trans; eauto.
Qed.

(** Under the guard of line 152 the division of line 153 does not raise. *)
Lemma py_div_pos a b : 0 < b -> py_div a b = Ok (a / b).
Proof.
  intros H. unfold py_div. destruct (Qeq_bool b 0) eqn:Hb; [| reflexivity].
  apply Qeq_bool_iff in Hb. rewrite Hb in H. exfalso. exact (Qlt_irrefl 0 H).
Qed.

Lemma normalize_eq geo min_x min_y max_x max_y :
  rect geo = (min_x, min_y, max_x, max_y) ->
  normalize geo =
  Ok (transform (matmul (translation 0 1) (scale 1 (-1)))
        (if Qpos_bool (max_x - min_x) && Qpos_bool (max_y - min_y)
         then transform (scale (1 / (max_x - min_x)) (1 / (max_y - min_y)))
                        (transform (translation (- min_x) (- min_y)) geo)
         else transform (translation (- min_x) (- min_y)) geo)).
Proof.
  intros Hr. unfold normalize. rewrite Hr.
  destruct (Qpos_bool (max_x - min_x)) eqn:Hw; [| reflexivity].
  destruct (Qpos_bool (max_y - min_y)) eqn:Hh; [| reflexivity].
  apply Qpos_bool_iff in Hw. apply Qpos_bool_iff in Hh.
  cbn [andb]. rewrite (py_div_pos 1 _ Hw). cbn [bind].
  rewrite (py_div_pos 1 _ Hh). reflexivity.
Qed.

Lemma normalize_total geo : exists norm_geo, normalize geo = Ok norm_geo.
Proof.
  destruct (rect geo) as [[[min_x min_y] max_x] max_y] eqn:Hr.
  rewrite (normalize_eq geo _ _ _ _ Hr). eauto.
Qed.

Lemma package_total self geo : exists payload, package self geo = Ok payload.
Proof.
  unfold package. destruct (rect geo) as [[[min_x min_y] max_x] max_y].
  destruct (normalize_total geo) as [norm_geo ->]. cbn [bind]. eauto.
Qed.

Lemma geo_eq_map (f g : Command -> Command) geo :
  (forall c, command_eq (f c) (g c)) -> geo_eq (map f geo) (map g geo).
Proof.
  intros H. induction geo as [| c geo IH]; simpl; constructor; auto.
Qed.




(** ** The orchestrator (lines 37-183) *)

Lemma get_doc_items_converted h k self path projection :
  CQ_AVAILABLE h = true ->
  tmp_write h (raw_data self) = Ok path ->
  load_projection k self = Ok (Some projection) ->
  get_doc_items h k self = try_except (convert k self projection) (fun _ => Ok None).
Proof.
  intros Hcq Htmp Hl. unfold get_doc_items, import_body.
  rewrite Hcq, Htmp, Hl. reflexivity.
Qed.

Lemma convert_success k self projection wires geo n payload :
  vals k projection = Ok wires ->
  extract_geometry k wires = Ok (geo, n) ->
  is_empty geo = false ->
  package self geo = Ok payload ->
  convert k self projection = Ok (Some payload).
Proof.
  intros Hv He Hne Hp. unfold convert. rewrite Hv. cbn [bind].
  destruct wires as [| w ws].
  - unfold extract_geometry in He. simpl in He. inversion He; subst. discriminate.
  - rewrite He. cbn [bind]. rewrite Hne, Hp. reflexivity.
Qed.

Lemma convert_raise k self projection wires e :
  vals k projection = Ok wires ->
  extract_geometry k wires = Raise e ->
  convert k self projection = Raise e.
Proof.
  intros Hv He. unfold convert. rewrite Hv. cbn [bind].
  destruct wires as [| w ws].
  - unfold extract_geometry in He. simpl in He. discriminate.
  - rewrite He. reflexivity.
Qed.

(** A successful import went through every stage. *)
Lemma get_doc_items_success_inv h k self payload :
  get_doc_items h k self = Ok (Some payload) ->
  exists path projection wires geo n,
    CQ_AVAILABLE h = true /\
    tmp_write h (raw_data self) = Ok path /\
    load_projection k self = Ok (Some projection) /\
    vals k projection = Ok wires /\
    extract_geometry k wires = Ok (geo, n) /\
    is_empty geo = false /\
    package self geo = Ok payload.
Proof.
  unfold get_doc_items. destruct (CQ_AVAILABLE h); cbn [negb]; [| discriminate].
  destruct (tmp_write h (raw_data self)) as [path | e] eqn:Htmp; cbn [bind];
    [| discriminate].
  unfold import_body.
  destruct (load_projection k self) as [[projection |] | e] eqn:Hl;
    cbn [bind try_except]; try discriminate.
  unfold convert.
  destruct (vals k projection) as [wires | e] eqn:Hv; cbn [bind try_except];
    try discriminate.
  destruct wires as [| w ws]; cbn [try_except]; try discriminate.
  destruct (extract_geometry k (w :: ws)) as [[geo n] | e] eqn:He;
    cbn [bind try_except]; try discriminate.
  destruct (is_empty geo) eqn:Hne; cbn [try_except]; try discriminate.
  destruct (package self geo) as [p | e] eqn:Hp; cbn [bind try_except];
    try discriminate.
  intros H. inversion H; subst.
  exists path, projection, (w :: ws), geo, n. repeat split; auto.
Qed.

(** Once the temporary file is written nothing escapes the outer handler. *)
Lemma get_doc_items_shielded h k self :
  CQ_AVAILABLE h = false \/ (exists path, tmp_write h (raw_data self) = Ok path) ->
  exists r, get_doc_items h k self = Ok r.
Proof.
  unfold get_doc_items. intros [Hcq | [path Htmp]].
  - rewrite Hcq. simpl. eauto.
  - destruct (CQ_AVAILABLE h); cbn [negb]; [| eauto].
    rewrite Htmp. cbn [bind]. apply try_except_total.
Qed.

(** ** Per-edge failures (lines 114-126) *)

Lemma edge_commands_raise k e err : discretize k e = Raise err -> edge_commands k e = [].
Proof. unfold edge_commands. intros ->. reflexivity. Qed.

Lemma edge_counted_raise k e err : discretize k e = Raise err -> edge_counted k e = 0%nat.
Proof. unfold edge_counted. intros ->. reflexivity. Qed.

Lemma edge_counted_all k es :
  (forall e, In e es -> exists p ps, discretize k e = Ok (p :: ps)) ->
  list_sum (map (edge_counted k) es) = length es.
Proof.
  induction es as [| e es IH]; intros H; [reflexivity |].
  cbn [map length].
  change (list_sum (edge_counted k e :: map (edge_counted k) es))
    with (edge_counted k e + list_sum (map (edge_counted k) es))%nat.
  rewrite IH by (intros; apply H; right; auto).
  destruct (H e (or_introl eq_refl)) as (p & ps & Hp).
  unfold edge_counted. rewrite Hp. reflexivity.
Qed.

(** C7 (amended). In a loop of N edges in which one edge's discretization
    raises and every other edge discretizes to a non-empty point sequence,
    the failing edge is skipped, the other edges are processed as if it
    were absent, and the loop adds N-1 to the edge count.  No
    discretization outcome makes the assembly raise, and the import
    succeeds whenever the assembled geometry is not empty. *)
Theorem failing_edge_is_skipped k :
  (forall pre e post err geo n,
     discretize k e = Raise err ->
     (forall e', In e' (pre ++ post) -> exists p ps, discretize k e' = Ok (p :: ps)) ->
     for_each (edge_body k) (pre ++ e :: post) (geo, n) =
       for_each (edge_body k) (pre ++ post) (geo, n) /\
     for_each (edge_body k) (pre ++ e :: post) (geo, n) =
       Ok (geo ++ concat (map (edge_commands k) (pre ++ post)),
           (length (pre ++ e :: post) - 1 + n)%nat)) /\
  (forall h self path projection wires,
     CQ_AVAILABLE h = true ->
     tmp_write h (raw_data self) = Ok path ->
     load_projection k self = Ok (Some projection) ->
     vals k projection = Ok wires ->
     (forall w, In w wires -> exists es, Edges k w = Ok es /\
        forall e0 rest, es = e0 :: rest -> exists s, startPoint k e0 = Ok s) ->
     exists geo n,
       extract_geometry k wires = Ok (geo, n) /\
       (is_empty geo = false ->
        exists payload, package self geo = Ok payload /\
                        get_doc_items h k self = Ok (Some payload))).
Proof.
  split.
  - intros pre e post err geo n He Hall.
    rewrite !for_each_edges. rewrite !map_app. cbn [map].
    rewrite (edge_commands_raise k e err He).
    rewrite !concat_app. cbn [concat app].
    rewrite !list_sum_app.
    change (list_sum (edge_counted k e :: map (edge_counted k) post))
      with (edge_counted k e + list_sum (map (edge_counted k) post))%nat.
    rewrite (edge_counted_raise k e err He).
    rewrite (edge_counted_all k pre) by (intros; apply Hall; apply in_or_app; auto).
    rewrite (edge_counted_all k post) by (intros; apply Hall; apply in_or_app; auto).
    split; [reflexivity |].
    f_equal. f_equal. rewrite length_app. cbn [length]. lia.
  - intros h self path projection wires Hcq Htmp Hl Hv Hall.
    destruct (for_each_wires_total k wires Hall ([], 0%nat)) as [[geo n] He].
    exists geo, n. split; [exact He |].
    intros Hne. destruct (package_total self geo) as [payload Hp].
    exists payload. split; [exact Hp |].
    rewrite (get_doc_items_converted h k self path projection Hcq Htmp Hl).
    rewrite (convert_success k self projection wires geo n payload Hv He Hne Hp).
    reflexivity.
Qed.

Lemma failing_edge_is_skipped_witness :
  for_each (edge_body (mock_kernel triangle_broken)) [0; 1; 2]%nat ([MoveTo 0 0], 0%nat) =
    Ok ([MoveTo 0 0; LineTo (inject_Z 2) 0; LineTo 0 0], 2%nat) /\
  exists payload,
    get_doc_items good_host (mock_kernel triangle_broken) demo_importer = Ok (Some payload).
Proof.
  destruct (failing_edge_is_skipped (mock_kernel triangle_broken)) as [Hloop Himport].
  split.
  - destruct (Hloop [0%nat] 1%nat [2%nat] "Standard_Failure"%string [MoveTo 0 0] 0%nat
                eq_refl) as [_ Hcount].
    + intros e' [<- | [<- | []]]; eexists; eexists; reflexivity.
    + exact Hcount.
  - destruct (Himport good_host demo_importer "/tmp/tmpq3.step"%string 0%nat [0%nat]
                eq_refl eq_refl eq_refl eq_refl) as (geo & n & He & Hsucc).
    + intros w [<- | []]. exists [0; 1; 2]%nat. split; [reflexivity |].
      intros e0 rest Heq. inversion Heq. eexists. reflexivity.
    + assert (Hgeo : geo = [MoveTo 0 0; LineTo (inject_Z 2) 0; LineTo 0 0]).
      { vm_compute in He. inversion He. reflexivity. }
      subst geo. destruct (Hsucc eq_refl) as (payload & _ & Hp).
      exists payload. exact Hp.
Defined.

(** C7 as stated fails: with one raising edge and one edge whose
    discretization is empty, a loop of 2 edges counts 0 edges, not 1. *)
Lemma edge_count_below_N_minus_1 :
  ~ (forall k pre e post err geo n,
       discretize k e = Raise err ->
       (forall e' err', In e' (pre ++ post) -> discretize k e' <> Raise err') ->
       exists geo',
         for_each (edge_body k) (pre ++ e :: post) (geo, n) =
         Ok (geo', (length (pre ++ e :: post) - 1 + n)%nat)).
Proof.
  intros H.
  destruct (H (mock_kernel one_broken_one_empty) [] 0%nat [1%nat]
              "Standard_Failure"%string [MoveTo 0 0] 0%nat eq_refl) as [geo' Hg].
  - intros e' err' [<- | []]. discriminate.
  - vm_compute in Hg. discriminate.
Qed.

(** ** Skipped loops (lines 106-112) *)

(** C8 (amended). A loop without edges is skipped and the loops after it
    are assembled as if it were absent.  A loop whose first edge has no
    evaluable start point is not skipped: the exception ends the assembly,
    the outer handler catches it and the import returns [None]. *)
Theorem unevaluable_loop k :
  (forall w ws1 ws2,
     Edges k w = Ok [] ->
     extract_geometry k (ws1 ++ w :: ws2) = extract_geometry k (ws1 ++ ws2)) /\
  (forall h self path projection wires w e0 es err,
     CQ_AVAILABLE h = true ->
     tmp_write h (raw_data self) = Ok path ->
     load_projection k self = Ok (Some projection) ->
     vals k projection = Ok wires ->
     In w wires ->
     Edges k w = Ok (e0 :: es) ->
     startPoint k e0 = Raise err ->
     (exists err', extract_geometry k wires = Raise err') /\
     get_doc_items h k self = Ok None).
Proof.
  split.
  - intros w ws1 ws2 He. unfold extract_geometry. rewrite !for_each_app.
    destruct (for_each (wire_body k) ws1 ([], 0%nat)) as [st | e]; cbn [bind];
      [| reflexivity].
    cbn [for_each]. rewrite (wire_body_no_edges k w st He). reflexivity.
  - intros h self path projection wires w e0 es err Hcq Htmp Hl Hv Hin He Hs.
    assert (Hr : exists err', extract_geometry k wires = Raise err').
    { apply (for_each_raise (wire_body k) wires w Hin).
      intros st. exists err. eapply wire_body_start_raises; eauto. }
    split; [exact Hr |]. destruct Hr as [err' Hr].
    rewrite (get_doc_items_converted h k self path projection Hcq Htmp Hl).
    rewrite (convert_raise k self projection wires err' Hv Hr). reflexivity.
Qed.

Lemma unevaluable_loop_witness :
  extract_geometry (mock_kernel with_empty_loop) [0; 1; 2]%nat =
    extract_geometry (mock_kernel with_empty_loop) [0; 2]%nat /\
  get_doc_items good_host (mock_kernel bad_first_loop) demo_importer = Ok None.
Proof.
  split.
  - destruct (unevaluable_loop (mock_kernel with_empty_loop)) as [Hskip _].
    apply (Hskip 1%nat [0%nat] [2%nat]). reflexivity.
  - destruct (unevaluable_loop (mock_kernel bad_first_loop)) as [_ Hfatal].
    apply (Hfatal good_host demo_importer "/tmp/tmpq3.step"%string 0%nat [0; 1]%nat
             0%nat 0%nat [] "Standard_Failure"%string);
      try reflexivity.
    simpl. auto.
Defined.

(** C8 as stated fails: a loop whose first edge has no start point is not
    skipped.  With such a loop before a good one the assembly raises and
    the import returns [None]; the good loop alone imports. *)
Lemma unevaluable_loop_is_fatal :
  ~ (forall k w ws1 ws2 e0 es err,
       Edges k w = Ok (e0 :: es) ->
       startPoint k e0 = Raise err ->
       extract_geometry k (ws1 ++ w :: ws2) = extract_geometry k (ws1 ++ ws2)) /\
  get_doc_items good_host (mock_kernel bad_first_loop) demo_importer = Ok None /\
  get_doc_items good_host (mock_kernel good_loop_only) demo_importer <> Ok None.
Proof.
  split; [| split].
  - intros H.
    specialize (H (mock_kernel bad_first_loop) 0%nat [] [1%nat] 0%nat []
                  "Standard_Failure"%string eq_refl eq_refl).
    vm_compute in H. discriminate.
  - reflexivity.
  - vm_compute. discriminate.
Qed.

(** ** The subpaths of the result (lines 106-130) *)

Lemma edge_commands_lines k e : Forall (fun c => is_line c = true) (edge_commands k e).
Proof.
  unfold edge_commands. destruct (discretize k e) as [[| p ps] | err]; try constructor.
  induction ps as [| q ps IH]; simpl; constructor; auto.
Qed.

Lemma concat_lines k es :
  Forall (fun c => is_line c = true) (concat (map (edge_commands k) es)).
Proof.
  induction es as [| e es IH]; simpl; [constructor |].
  apply Forall_app. split; [apply edge_commands_lines | exact IH].
Qed.

Lemma split_paths_lines ls g :
  Forall (fun c => is_line c = true) ls ->
  split_paths (ls ++ g) = (points ls ++ fst (split_paths g), snd (split_paths g)).
Proof.
  induction 1 as [| c ls Hc Hls IH]; simpl.
  - destruct (split_paths g); reflexivity.
  - destruct c as [x y | x y]; [discriminate |].
    rewrite IH. reflexivity.
Qed.

Lemma split_paths_blocks blocks :
  Forall (fun b => exists x y ls,
            b = MoveTo x y :: ls /\ Forall (fun c => is_line c = true) ls) blocks ->
  split_paths (concat blocks) = ([], map points blocks).
Proof.
  induction 1 as [| b blocks (x & y & ls & -> & Hls) HF IH]; [reflexivity |].
  cbn [concat app split_paths]. rewrite (split_paths_lines ls _ Hls), IH.
  cbn [fst snd map points end_point]. rewrite app_nil_r. reflexivity.
Qed.

Lemma loop_block_shape k w b :
  is_loop_block k w b ->
  exists x y ls, b = MoveTo x y :: ls /\ Forall (fun c => is_line c = true) ls.
Proof.
  intros (e0 & es & s & He & Hs & ->). do 3 eexists. split; [reflexivity |].
  apply concat_lines.
Qed.

Lemma loop_block_size k w b :
  is_loop_block k w b ->
  exists es, Edges k w = Ok es /\
             length (points b) = S (list_sum (map (appended k) es)).
Proof.
  intros (e0 & es & s & He & Hs & ->). exists (e0 :: es). split; [exact He |].
  unfold points. rewrite length_map. cbn [length]. f_equal.
  rewrite length_concat, map_map. reflexivity.
Qed.

Lemma split_paths_transform m geo :
  split_paths (transform m geo) =
  (map (apply_matrix m) (fst (split_paths geo)),
   map (map (apply_matrix m)) (snd (split_paths geo))).
Proof.
  induction geo as [| c geo IH]; [reflexivity |].
  unfold transform in *. cbn [map]. destruct c as [x y | x y]; simpl;
    rewrite IH; destruct (split_paths geo); reflexivity.
Qed.

Lemma subpaths_transform m geo :
  subpaths (transform m geo) = map (map (apply_matrix m)) (subpaths geo).
Proof.
  unfold subpaths. rewrite split_paths_transform.
  destruct (split_paths geo) as [[| p run] sps]; reflexivity.
Qed.

Lemma subpath_lengths_transform m geo :
  map (@length _) (subpaths (transform m geo)) = map (@length _) (subpaths geo).
Proof.
  rewrite subpaths_transform, map_map. apply map_ext. intros sp. apply length_map.
Qed.

Lemma subpath_lengths_normalize geo norm_geo :
  normalize geo = Ok norm_geo ->
  map (@length _) (subpaths norm_geo) = map (@length _) (subpaths geo).
Proof.
  destruct (rect geo) as [[[min_x min_y] max_x] max_y] eqn:Hr.
  rewrite (normalize_eq geo _ _ _ _ Hr). intros H. inversion H; subst. clear H.
  rewrite subpath_lengths_transform.
  destruct (Qpos_bool (max_x - min_x) && Qpos_bool (max_y - min_y));
    rewrite !subpath_lengths_transform; reflexivity.
Qed.

Lemma package_masks self geo payload :
  package self geo = Ok payload ->
  exists norm_geo, normalize geo = Ok norm_geo /\ masks payload = [norm_geo].
Proof.
  unfold package. destruct (rect geo) as [[[min_x min_y] max_x] max_y].
  destruct (normalize geo) as [norm_geo | e]; cbn [bind]; [| discriminate].
  intros H. inversion H; subst. exists norm_geo. split; reflexivity.
Qed.

Lemma Forall2_lengths {X B : Type} (P : X -> list B -> Prop) (Q : X -> nat -> Prop)
      (xs : list X) (bs : list (list B)) :
  Forall2 P xs bs ->
  (forall x b, P x b -> Q x (length b)) ->
  forall (A : Type) (sps : list (list A)),
    map (@length _) sps = map (@length _) bs ->
    Forall2 (fun x sp => Q x (length sp)) xs sps.
Proof.
  intros HF HPQ A. induction HF as [| x b xs bs Hxb HF IH]; intros sps Hm.
  - destruct sps; [constructor | discriminate].
  - destruct sps as [| sp sps]; [discriminate |]. simpl in Hm. inversion Hm.
    constructor; [| apply IH; assumption].
    match goal with H : length sp = length b |- _ => rewrite H end. auto.
Qed.

Lemma appended_pos k e :
  (1 <= appended k e)%nat <-> exists p q ps, discretize k e = Ok (p :: q :: ps).
Proof.
  unfold appended, edge_commands.
  destruct (discretize k e) as [[| p [| q ps]] | err]; simpl; split; intros H;
    try lia; try (destruct H as (p' & q' & ps' & H); discriminate).
  do 3 eexists. reflexivity.
Qed.

Lemma list_sum_pos {X : Type} (f : X -> nat) (xs : list X) :
  (1 <= list_sum (map f xs))%nat <-> exists x, In x xs /\ (1 <= f x)%nat.
Proof.
  induction xs as [| x xs IH].
  - simpl. split; [lia | intros (x & [] & _)].
  - cbn [map]. change (list_sum (f x :: map f xs)) with (f x + list_sum (map f xs))%nat.
    split.
    + intros H. destruct (f x) as [| m] eqn:Hfx.
      * simpl in H. apply IH in H. destruct H as (y & Hy & Hpos).
        exists y. split; [right; exact Hy | exact Hpos].
      * exists x. split; [left; reflexivity | lia].
    + intros (y & [<- | Hy] & Hpos); [lia |].
      assert (1 <= list_sum (map f xs))%nat by (apply IH; eauto). lia.
Qed.

(** C9 (amended). In the geometry of a successful import there is one
    subpath for each loop that has edges, in loop order; a subpath holds the
    start point of its loop and the points its edges append, so it is never
    empty, and it has at least 2 points exactly when some edge of its loop
    is discretized into at least 2 points. *)
Theorem subpaths_follow_loops h k self payload :
  get_doc_items h k self = Ok (Some payload) ->
  exists projection wires,
    load_projection k self = Ok (Some projection) /\
    vals k projection = Ok wires /\
    forall mask, In mask (masks payload) ->
      Forall2 (subpath_of_loop k) (filter (has_edges k) wires) (subpaths mask) /\
      Forall (fun sp => (1 <= length sp)%nat) (subpaths mask).
Proof.
  intros H. apply get_doc_items_success_inv in H.
  destruct H as (path & projection & wires & geo & n & _ & _ & Hl & Hv & He & _ & Hp).
  exists projection, wires. split; [exact Hl |]. split; [exact Hv |].
  unfold extract_geometry in He. apply for_each_wires_ok in He.
  destruct He as (blocks & HF & Hgeo). simpl in Hgeo. subst geo.
  destruct (package_masks _ _ _ Hp) as (norm_geo & Hn & Hm).
  rewrite Hm. intros mask [<- | []].
  pose proof (subpath_lengths_normalize _ _ Hn) as Hlen.
  assert (Hsub : subpaths (concat blocks) = map points blocks).
  { unfold subpaths. rewrite split_paths_blocks; [reflexivity |].
    clear - HF. induction HF; constructor; auto. eapply loop_block_shape; eauto. }
  rewrite Hsub in Hlen.
  assert (HF2 : Forall2 (fun w sp => exists es,
                   Edges k w = Ok es /\
                   length sp = S (list_sum (map (appended k) es)))
                 (filter (has_edges k) wires) (subpaths norm_geo)).
  { apply (Forall2_lengths
             (fun w (b : list (Q * Q)) => exists es,
                Edges k w = Ok es /\ length b = S (list_sum (map (appended k) es)))
             (fun w len => exists es,
                Edges k w = Ok es /\ len = S (list_sum (map (appended k) es)))
             (filter (has_edges k) wires) (map points blocks)).
    - clear - HF. induction HF; constructor; auto. eapply loop_block_size; eauto.
    - auto.
    - exact Hlen. }
  split.
  - eapply Forall2_impl; [| exact HF2].
    intros w sp (es & Hes & Hsp). exists es. split; [exact Hes |]. split; [exact Hsp |].
    rewrite Hsp. split.
    + intros H2. assert (H1 : (1 <= list_sum (map (appended k) es))%nat) by lia.
      apply list_sum_pos in H1. destruct H1 as (e & Hin & Hpos).
      apply appended_pos in Hpos. destruct Hpos as (p & q & ps & Hd).
      exists e, p, q, ps. auto.
    + intros (e & p & q & ps & Hin & Hd).
      assert (H1 : (1 <= list_sum (map (appended k) es))%nat).
      { apply list_sum_pos. exists e. split; [exact Hin |].
        apply appended_pos. eauto. }
      lia.
  - clear - HF2. induction HF2 as [| w sp ws sps (es & _ & Hsp) _ IH]; constructor; auto.
    lia.
Qed.

Lemma subpaths_follow_loops_witness :
  exists payload,
    get_doc_items good_host (mock_kernel dangling_loop) demo_importer = Ok (Some payload) /\
    forall mask, In mask (masks payload) ->
      Forall2 (subpath_of_loop (mock_kernel dangling_loop)) [0; 1]%nat (subpaths mask) /\
      Forall (fun sp => (1 <= length sp)%nat) (subpaths mask).
Proof.
  destruct (get_doc_items good_host (mock_kernel dangling_loop) demo_importer)
    as [[payload |] | e] eqn:Hrun; try (vm_compute in Hrun; discriminate).
  exists payload. split; [reflexivity |].
  destruct (subpaths_follow_loops good_host (mock_kernel dangling_loop) demo_importer
              payload Hrun) as (projection & wires & Hl & Hv & Hmask).
  vm_compute in Hl. inversion Hl; subst projection.
  vm_compute in Hv. inversion Hv; subst wires.
  exact Hmask.
Defined.

(** C9 as stated fails: a loop whose only edge cannot be discretized leaves
    a subpath of one point in the geometry of a successful import. *)
Lemma single_point_subpath :
  ~ (forall h k self payload,
       get_doc_items h k self = Ok (Some payload) ->
       forall mask, In mask (masks payload) ->
         Forall (fun sp => (2 <= length sp)%nat) (subpaths mask)).
Proof.
  intros H.
  assert (E : exists payload,
             get_doc_items good_host (mock_kernel dangling_loop) demo_importer =
               Ok (Some payload) /\
             exists mask, In mask (masks payload) /\
             exists sp, In sp (subpaths mask) /\ length sp = 1%nat).
  { vm_compute. eexists. split; [reflexivity |].
    eexists. split; [left; reflexivity |].
    eexists. split; [right; left; reflexivity | reflexivity]. }
  destruct E as (payload & Hp & mask & Hm & sp & Hsp & Hlen).
  specialize (H _ _ _ _ Hp mask Hm). rewrite Forall_forall in H.
  specialize (H sp Hsp). lia.
Qed.

(** ** The bounding box *)

Lemma grow_rect_bbox seen r p :
  is_bbox seen r -> is_bbox (seen ++ [p]) (grow_rect r p).
Proof.
  destruct r as [[[a b] c] d]. destruct p as [x y]. unfold is_bbox, grow_rect.
  cbn [fst snd].
  intros (Hall & (pa & Hpa & Ha) & (pb & Hpb & Hb) & (pc & Hpc & Hc) & (pd & Hpd & Hd)).
  pose proof (Q.min_spec a x) as Hmin_x. pose proof (Q.min_spec b y) as Hmin_y.
  pose proof (Q.max_spec c x) as Hmax_x. pose proof (Q.max_spec d y) as Hmax_y.
  set (lo_x := Qmin a x) in *. set (lo_y := Qmin b y) in *.
  set (hi_x := Qmax c x) in *. set (hi_y := Qmax d y) in *.
  assert (Hnew : In (x, y) (seen ++ [(x, y)]))
    by (apply in_or_app; right; left; reflexivity).
  assert (Hold : forall q, In q seen -> In q (seen ++ [(x, y)]))
    by (intros; apply in_or_app; left; assumption).
  split; [| split; [| split; [| split]]].
  - intros q Hq. apply in_app_or in Hq. destruct Hq as [Hq | [<- | []]].
    + destruct (Hall q Hq) as (H1 & H2 & H3 & H4). repeat split; lra.
    + cbn [fst snd]. repeat split; lra.
  - destruct Hmin_x as [[Hlt He] | [Hle He]].
    + exists pa. split; [auto | lra].
    + exists (x, y). split; [auto | cbn [fst]; lra].
  - destruct Hmin_y as [[Hlt He] | [Hle He]].
    + exists pb. split; [auto | lra].
    + exists (x, y). split; [auto | cbn [snd]; lra].
  - destruct Hmax_x as [[Hlt He] | [Hle He]].
    + exists (x, y). split; [auto | cbn [fst]; lra].
    + exists pc. split; [auto | lra].
  - destruct Hmax_y as [[Hlt He] | [Hle He]].
    + exists (x, y). split; [auto | cbn [snd]; lra].
    + exists pd. split; [auto | lra].
Qed.

Lemma fold_grow_rect_bbox ps :
  forall seen r, is_bbox seen r -> is_bbox (seen ++ ps) (fold_left grow_rect ps r).
Proof.
  induction ps as [| p ps IH]; intros seen r H.
  - rewrite app_nil_r. exact H.
  - cbn [fold_left].
    replace (seen ++ p :: ps) with ((seen ++ [p]) ++ ps)
      by (rewrite <- app_assoc; reflexivity).
    apply IH. apply grow_rect_bbox. exact H.
Qed.

Lemma rect_of_points_bbox ps : ps <> [] -> is_bbox ps (rect_of_points ps).
Proof.
  destruct ps as [| p ps]; [congruence |]. intros _. unfold rect_of_points.
  apply (fold_grow_rect_bbox ps [p]).
  unfold is_bbox. split.
  - intros q [<- | []]. repeat split; apply Qle_refl.
  - repeat split; exists p; (split; [left; reflexivity | reflexivity]).
Qed.

Lemma bbox_unique ps ps' r r' :
  is_bbox ps r -> is_bbox ps' r' ->
  (forall p, In p ps -> exists p', In p' ps' /\ point_eq p p') ->
  (forall p', In p' ps' -> exists p, In p ps /\ point_eq p p') ->
  rect_eq r r'.
Proof.
  destruct r as [[[a b] c] d]. destruct r' as [[[a' b'] c'] d'].
  unfold is_bbox, rect_eq, point_eq.
  intros (Hall & (pa & Hpa & Ha) & (pb & Hpb & Hb) & (pc & Hpc & Hc) & (pd & Hpd & Hd))
         (Hall' & (pa' & Hpa' & Ha') & (pb' & Hpb' & Hb') & (pc' & Hpc' & Hc')
                & (pd' & Hpd' & Hd'))
         Hto Hfrom.
  destruct (Hto pa Hpa) as (qa & Hqa & Ea1 & Ea2).
  destruct (Hto pb Hpb) as (qb & Hqb & Eb1 & Eb2).
  destruct (Hto pc Hpc) as (qc & Hqc & Ec1 & Ec2).
  destruct (Hto pd Hpd) as (qd & Hqd & Ed1 & Ed2).
  destruct (Hfrom pa' Hpa') as (qa' & Hqa' & Ea1' & Ea2').
  destruct (Hfrom pb' Hpb') as (qb' & Hqb' & Eb1' & Eb2').
  destruct (Hfrom pc' Hpc') as (qc' & Hqc' & Ec1' & Ec2').
  destruct (Hfrom pd' Hpd') as (qd' & Hqd' & Ed1' & Ed2').
  pose proof (Hall' qa Hqa). pose proof (Hall' qb Hqb).
  pose proof (Hall' qc Hqc). pose proof (Hall' qd Hqd).
  pose proof (Hall qa' Hqa'). pose proof (Hall qb' Hqb').
  pose proof (Hall qc' Hqc'). pose proof (Hall qd' Hqd').
  repeat split; lra.
Qed.

Lemma geo_eq_points g g' : geo_eq g g' -> Forall2 point_eq (points g) (points g').
Proof.
  induction 1 as [| c c' g g' Hc H IH]; simpl; constructor; auto.
  destruct c, c'; simpl in Hc; try contradiction; exact Hc.
Qed.

Lemma Forall2_in_l {X Y : Type} (R : X -> Y -> Prop) xs ys :
  Forall2 R xs ys -> forall x, In x xs -> exists y, In y ys /\ R x y.
Proof.
  induction 1 as [| x0 y0 xs ys H0 H IH]; intros x Hin; [contradiction |].
  destruct Hin as [<- | Hin].
  - exists y0. split; [left; reflexivity | exact H0].
  - destruct (IH x Hin) as (y & Hy & Hxy). exists y. split; [right |]; auto.
Qed.

Lemma Forall2_in_r {X Y : Type} (R : X -> Y -> Prop) xs ys :
  Forall2 R xs ys -> forall y, In y ys -> exists x, In x xs /\ R x y.
Proof.
  induction 1 as [| x0 y0 xs ys H0 H IH]; intros y Hin; [contradiction |].
  destruct Hin as [<- | Hin].
  - exists x0. split; [left; reflexivity | exact H0].
  - destruct (IH y Hin) as (x & Hx & Hxy). exists x. split; [right |]; auto.
Qed.

Lemma points_transform m geo :
  points (transform m geo) = map (apply_matrix m) (points geo).
Proof.
  unfold points, transform. rewrite !map_map. apply map_ext.
  intros [x y | x y]; reflexivity.
Qed.

(** The mirror of a geometry within its own band has the same box. *)
Lemma mirror_bbox ps a b c d :
  is_bbox ps (a, b, c, d) -> is_bbox (map (apply_matrix (mirror_y b d)) ps) (a, b, c, d).
Proof.
  unfold is_bbox.
  intros (Hall & (pa & Hpa & Ha) & (pb & Hpb & Hb) & (pc & Hpc & Hc) & (pd & Hpd & Hd)).
  split.
  - intros q Hq. apply in_map_iff in Hq. destruct Hq as (p & <- & Hp).
    destruct (Hall p Hp) as (H1 & H2 & H3 & H4).
    unfold apply_matrix, mirror_y. cbn [fst snd m_sx m_sy m_tx m_ty].
    repeat split; lra.
  - repeat split.
    + exists (apply_matrix (mirror_y b d) pa). split; [apply in_map; exact Hpa |].
      unfold apply_matrix, mirror_y. cbn [fst snd m_sx m_sy m_tx m_ty]. lra.
    + exists (apply_matrix (mirror_y b d) pd). split; [apply in_map; exact Hpd |].
      unfold apply_matrix, mirror_y. cbn [fst snd m_sx m_sy m_tx m_ty]. lra.
    + exists (apply_matrix (mirror_y b d) pc). split; [apply in_map; exact Hpc |].
      unfold apply_matrix, mirror_y. cbn [fst snd m_sx m_sy m_tx m_ty]. lra.
    + exists (apply_matrix (mirror_y b d) pb). split; [apply in_map; exact Hpb |].
      unfold apply_matrix, mirror_y. cbn [fst snd m_sx m_sy m_tx m_ty]. lra.
Qed.

(** ** The placement transform (lines 149-170) *)

Lemma package_placed self geo payload min_x min_y max_x max_y :
  rect geo = (min_x, min_y, max_x, max_y) ->
  package self geo = Ok payload ->
  exists norm_geo,
    normalize geo = Ok norm_geo /\
    placed payload =
      [transform (matmul (translation min_x min_y)
                         (scale (max_x - min_x) (max_y - min_y))) norm_geo].
Proof.
  intros Hr. unfold package. rewrite Hr.
  destruct (normalize geo) as [norm_geo | e]; cbn [bind]; [| discriminate].
  intros H. inversion H; subst. exists norm_geo. split; reflexivity.
Qed.

Lemma placed_normalized_is_mirror geo min_x min_y max_x max_y :
  0 < max_x - min_x -> 0 < max_y - min_y ->
  geo_eq
    (transform (matmul (translation min_x min_y) (scale (max_x - min_x) (max_y - min_y)))
       (transform (matmul (translation 0 1) (scale 1 (-1)))
          (transform (scale (1 / (max_x - min_x)) (1 / (max_y - min_y)))
             (transform (translation (- min_x) (- min_y)) geo))))
    (transform (mirror_y min_y max_y) geo).
Proof.
  intros Hw Hh. unfold transform. rewrite !map_map. apply geo_eq_map.
  intros [x y | x y]; simpl; split; field; intros Hc;
    rewrite Hc in *; eapply Qlt_irrefl; eauto.
Qed.

(** C6 (amended). For a successful import of a geometry of positive width
    and height, the placement transform applied to the normalised geometry
    gives the original geometry mirrored vertically within its bounding
    box, (x, y) -> (x, minY + maxY - y), and so has exactly the bounding
    box of the original (in exact arithmetic). *)
Theorem placement_mirrors h k self payload :
  get_doc_items h k self = Ok (Some payload) ->
  exists projection wires geo n,
    load_projection k self = Ok (Some projection) /\
    vals k projection = Ok wires /\
    extract_geometry k wires = Ok (geo, n) /\
    forall min_x min_y max_x max_y,
      rect geo = (min_x, min_y, max_x, max_y) ->
      0 < max_x - min_x -> 0 < max_y - min_y ->
      exists placed_geo,
        placed payload = [placed_geo] /\
        geo_eq placed_geo (transform (mirror_y min_y max_y) geo) /\
        rect_eq (rect placed_geo) (rect geo).
Proof.
  intros H. apply get_doc_items_success_inv in H.
  destruct H as (path & projection & wires & geo & n & _ & _ & Hl & Hv & He & _ & Hp).
  exists projection, wires, geo, n. repeat (split; [assumption |]).
  intros min_x min_y max_x max_y Hr Hw Hh.
  destruct (package_placed self geo payload _ _ _ _ Hr Hp) as (norm_geo & Hn & Hpl).
  rewrite (normalize_eq geo _ _ _ _ Hr) in Hn.
  assert (Hb : Qpos_bool (max_x - min_x) && Qpos_bool (max_y - min_y) = true).
  { apply andb_true_iff. rewrite !Qpos_bool_iff. auto. }
  rewrite Hb in Hn. inversion Hn; subst norm_geo. clear Hn.
  eexists. split; [exact Hpl |].
  pose proof (placed_normalized_is_mirror geo min_x min_y max_x max_y Hw Hh) as Hm.
  split; [exact Hm |].
  assert (Hne : points geo <> []).
  { intros Hnil. unfold rect in Hr. rewrite Hnil in Hr. simpl in Hr.
    inversion Hr; subst. revert Hw. apply Qlt_irrefl. }
  pose proof (rect_of_points_bbox (points geo) Hne) as Hbox.
  fold (rect geo) in Hbox. rewrite Hr in Hbox.
  apply mirror_bbox in Hbox. rewrite <- points_transform in Hbox.
  apply geo_eq_points in Hm.
  rewrite Hr.
  eapply bbox_unique.
  - apply rect_of_points_bbox. intros Hnil. apply Hne.
    pose proof (Forall2_length Hm) as HL.
    rewrite Hnil, points_transform, length_map in HL.
    destruct (points geo); [reflexivity | discriminate].
  - exact Hbox.
  - apply Forall2_in_l. exact Hm.
  - apply Forall2_in_r. exact Hm.
Qed.

Lemma placement_mirrors_witness :
  exists payload placed_geo,
    get_doc_items good_host (mock_kernel triangle) demo_importer = Ok (Some payload) /\
    placed payload = [placed_geo] /\
    geo_eq placed_geo (transform (mirror_y 0 (inject_Z 4)) triangle_geo) /\
    rect_eq (rect placed_geo) (rect triangle_geo).
Proof.
  destruct (get_doc_items good_host (mock_kernel triangle) demo_importer)
    as [[payload |] | e] eqn:Hrun; try (vm_compute in Hrun; discriminate).
  destruct (placement_mirrors good_host (mock_kernel triangle) demo_importer payload Hrun)
    as (projection & wires & geo & n & Hl & Hv & He & Hplaced).
  vm_compute in Hl. inversion Hl; subst projection.
  vm_compute in Hv. inversion Hv; subst wires.
  assert (Hgeo : geo = triangle_geo) by (vm_compute in He; inversion He; reflexivity).
  subst geo.
  destruct (Hplaced 0 0 (inject_Z 2) (inject_Z 4) eq_refl) as (placed_geo & H1 & H2 & H3);
    [reflexivity | reflexivity |].
  exists payload, placed_geo. repeat split; assumption.
Defined.

(** C6 as stated fails: the placed geometry of the triangle with corners
    (0,0), (2,0), (0,4) has its corners at (0,4), (2,4), (0,0). *)
Lemma placement_does_not_reconstruct :
  ~ (forall h k self payload projection wires geo n min_x min_y max_x max_y,
       get_doc_items h k self = Ok (Some payload) ->
       load_projection k self = Ok (Some projection) ->
       vals k projection = Ok wires ->
       extract_geometry k wires = Ok (geo, n) ->
       rect geo = (min_x, min_y, max_x, max_y) ->
       0 < max_x - min_x -> 0 < max_y - min_y ->
       forall placed_geo, In placed_geo (placed payload) -> geo_eq placed_geo geo).
Proof.
  intros H.
  destruct (get_doc_items good_host (mock_kernel triangle) demo_importer)
    as [[payload |] | e] eqn:Hrun; try (vm_compute in Hrun; discriminate).
  specialize (H good_host (mock_kernel triangle) demo_importer payload 1%nat [0%nat]
                triangle_geo 3%nat 0 0 (inject_Z 2) (inject_Z 4) Hrun
                eq_refl eq_refl eq_refl eq_refl eq_refl eq_refl).
  vm_compute in Hrun. inversion Hrun; subst payload. clear Hrun.
  specialize (H _ (or_introl eq_refl)).
  inversion H as [| c c' g g' Hc Hrest]; subst.
  destruct Hc as [_ Hy]. vm_compute in Hy. discriminate.
Qed.

(** ** The orchestrator boundary *)

(** Whatever the outer [try] returns is all or nothing: [None], or a
    payload around the normalised copy of a non-empty geometry. *)
Lemma get_doc_items_all_or_nothing h k self r :
  get_doc_items h k self = Ok r ->
  r = None \/
  exists payload geo norm_geo,
    r = Some payload /\
    is_empty geo = false /\
    normalize geo = Ok norm_geo /\
    masks payload = [norm_geo].
Proof.
  destruct r as [payload |]; [| auto]. intros H. right.
  apply get_doc_items_success_inv in H.
  destruct H as (path & projection & wires & geo & n & _ & _ & _ & _ & _ & Hne & Hp).
  destruct (package_masks _ _ _ Hp) as (norm_geo & Hn & Hm).
  exists payload, geo, norm_geo. auto.
Qed.

(** C1, at the input on which it fails.  The temporary file is written
    before the outer [try] is entered (lines 43-45): when the write raises,
    the exception leaves [get_doc_items], whatever the kernel and the
    bytes. *)
Theorem tmp_write_failure_escapes k self :
  get_doc_items full_disk_host k self =
  Raise "OSError: [Errno 28] No space left on device"%string.
Proof.
  reflexivity.
Qed.

(* ================================================================== *)
(** * Further properties of [get_doc_items] *)

(** ** When the import succeeds *)

(** X1. [get_doc_items] returns a payload exactly when the library is
    available, the temporary file is written, the model loads and has a
    target object, the projection has wires, the assembly returns, and the
    assembled geometry is not empty; the payload is then the package of
    that geometry. *)
Theorem get_doc_items_success_iff h k self payload :
  get_doc_items h k self = Ok (Some payload) <->
  CQ_AVAILABLE h = true /\
  (exists path, tmp_write h (raw_data self) = Ok path) /\
  exists projection wires geo n,
    load_projection k self = Ok (Some projection) /\
    vals k projection = Ok wires /\
    extract_geometry k wires = Ok (geo, n) /\
    is_empty geo = false /\
    package self geo = Ok payload.
Proof.
  split.
  - intros H. apply get_doc_items_success_inv in H.
    destruct H as (path & projection & wires & geo & n & Hcq & Htmp & Hrest).
    split; [exact Hcq |]. split; [eauto |].
    exists projection, wires, geo, n. exact Hrest.
  - intros (Hcq & (path & Htmp) & projection & wires & geo & n
            & Hl & Hv & He & Hne & Hp).
    rewrite (get_doc_items_converted h k self path projection Hcq Htmp Hl).
    rewrite (convert_success k self projection wires geo n payload Hv He Hne Hp).
    reflexivity.
Qed.

Lemma get_doc_items_success_iff_witness :
  exists payload projection wires geo n,
    get_doc_items good_host (mock_kernel triangle) demo_importer = Ok (Some payload) /\
    load_projection (mock_kernel triangle) demo_importer = Ok (Some projection) /\
    vals (mock_kernel triangle) projection = Ok wires /\
    extract_geometry (mock_kernel triangle) wires = Ok (geo, n) /\
    is_empty geo = false /\
    package demo_importer geo = Ok payload.
Proof.
  destruct (get_doc_items good_host (mock_kernel triangle) demo_importer)
    as [[payload |] | e] eqn:Hrun; try (vm_compute in Hrun; discriminate).
  destruct (proj1 (get_doc_items_success_iff good_host (mock_kernel triangle)
                     demo_importer payload) Hrun)
    as (_ & _ & projection & wires & geo & n & Hrest).
  exists payload, projection, wires, geo, n. split; [reflexivity | exact Hrest].
Defined.

(** X2. A projection without wires, or one all of whose loops are without
    edges, gives no result: the import returns [None] (lines 102-104 and
    128-130). *)
Theorem hollow_projection_returns_none h k self path projection wires :
  CQ_AVAILABLE h = true ->
  tmp_write h (raw_data self) = Ok path ->
  load_projection k self = Ok (Some projection) ->
  vals k projection = Ok wires ->
  (forall w, In w wires -> Edges k w = Ok []) ->
  get_doc_items h k self = Ok None.
Proof.
  intros Hcq Htmp Hl Hv Hall.
  rewrite (get_doc_items_converted h k self path projection Hcq Htmp Hl).
  unfold convert. rewrite Hv. cbn [bind].
  destruct wires as [| w ws]; [reflexivity |].
  assert (He : forall ws' st, (forall w', In w' ws' -> Edges k w' = Ok []) ->
                 for_each (wire_body k) ws' st = Ok st).
  { induction ws' as [| w' ws' IH]; intros st Hws; [reflexivity |].
    cbn [for_each]. rewrite (wire_body_no_edges k w' st (Hws w' (or_introl eq_refl))).
    cbn [bind]. apply IH. intros; apply Hws; right; assumption. }
  unfold extract_geometry. rewrite (He (w :: ws) _ Hall). reflexivity.
Qed.

Lemma hollow_projection_returns_none_witness :
  get_doc_items good_host (mock_kernel hollow) demo_importer = Ok None.
Proof.
  apply (hollow_projection_returns_none good_host (mock_kernel hollow) demo_importer
           "/tmp/tmpq3.step"%string 0%nat [0; 1]%nat eq_refl eq_refl eq_refl eq_refl).
  intros w [<- | [<- | []]]; reflexivity.
Defined.

(** ** The assembled geometry, command by command *)

Lemma wire_body_spec k w geo n geo' n' :
  wire_body k w (geo, n) = Ok (geo', n') <->
  evaluable_wire k w /\
  geo' = geo ++ loop_commands k w /\
  n' = (loop_counted k w + n)%nat.
Proof.
  unfold evaluable_wire, loop_commands, loop_counted. split.
  - intros H. unfold wire_body in H.
    destruct (Edges k w) as [[| e0 es] | err] eqn:He; cbn [bind] in H.
    + inversion H; subst. split; [| split].
      * exists []. split; [reflexivity | intros; discriminate].
      * rewrite app_nil_r. reflexivity.
      * reflexivity.
    + destruct (startPoint k e0) as [s | err] eqn:Hs; cbn [bind] in H; [| discriminate].
      rewrite for_each_edges in H. inversion H; subst. split; [| split].
      * exists (e0 :: es). split; [reflexivity |].
        intros e0' rest Heq. inversion Heq; subst. eauto.
      * unfold move_to. rewrite <- app_assoc. reflexivity.
      * reflexivity.
    + discriminate.
  - intros ((es & He & Hs) & -> & ->). rewrite He.
    destruct es as [| e0 es].
    + rewrite (wire_body_no_edges k w _ He). rewrite app_nil_r. reflexivity.
    + destruct (Hs e0 es eq_refl) as [s Hs']. rewrite Hs'.
      apply wire_body_edges; assumption.
Qed.

Lemma for_each_wires_spec k ws :
  forall geo n geo' n',
    for_each (wire_body k) ws (geo, n) = Ok (geo', n') <->
    (forall w, In w ws -> evaluable_wire k w) /\
    geo' = geo ++ concat (map (loop_commands k) ws) /\
    n' = (list_sum (map (loop_counted k) ws) + n)%nat.
Proof.
  induction ws as [| w ws IH]; intros geo n geo' n'.
  - simpl. rewrite app_nil_r. split.
    + intros H. inversion H; subst. repeat split. intros w [].
    + intros (_ & -> & ->). reflexivity.
  - cbn [for_each map concat].
    change (list_sum (loop_counted k w :: map (loop_counted k) ws))
      with (loop_counted k w + list_sum (map (loop_counted k) ws))%nat.
    split.
    + intros H. apply bind_ok in H. destruct H as ([g1 n1] & Hw & H).
      apply wire_body_spec in Hw. destruct Hw as (Hev & -> & ->).
      apply IH in H. destruct H as (Hall & -> & ->).
      split; [| split].
      * intros w' [<- | Hin]; auto.
      * rewrite <- app_assoc. reflexivity.
      * lia.
    + intros (Hall & -> & ->).
      assert (Hw : wire_body k w (geo, n) =
                   Ok (geo ++ loop_commands k w, (loop_counted k w + n)%nat)).
      { apply wire_body_spec. repeat split. apply Hall. left. reflexivity. }
      rewrite Hw. cbn [bind]. apply IH. split; [| split].
      * intros w' Hin. apply Hall. right. exact Hin.
      * rewrite <- app_assoc. reflexivity.
      * lia.
Qed.

(** X3. The assembly returns exactly when every loop lists its edges and
    every first edge has a start point; the geometry is then, loop after
    loop in the order of the projection, the move to the loop's start point
    followed, edge after edge, by a line to every point of the edge's
    discretization but the first, and the edge count is the number of edges
    with a non-empty discretization. *)
Theorem extract_geometry_spec k wires geo n :
  extract_geometry k wires = Ok (geo, n) <->
  (forall w, In w wires -> evaluable_wire k w) /\
  geo = concat (map (loop_commands k) wires) /\
  n = list_sum (map (loop_counted k) wires).
Proof.
  unfold extract_geometry. rewrite for_each_wires_spec. cbn [app].
  rewrite Nat.add_0_r. reflexivity.
Qed.

Lemma extract_geometry_spec_witness :
  triangle_geo = concat (map (loop_commands (mock_kernel triangle)) [0%nat]) /\
  3%nat = list_sum (map (loop_counted (mock_kernel triangle)) [0%nat]).
Proof.
  destruct (proj1 (extract_geometry_spec (mock_kernel triangle) [0%nat] triangle_geo 3%nat)
              eq_refl) as (_ & Hgeo & Hn).
  split; assumption.
Defined.

(** ** The edge count (lines 98, 124, 132) *)

Lemma list_sum_cons (a : nat) (l : list nat) : list_sum (a :: l) = (a + list_sum l)%nat.
Proof. reflexivity. Qed.

Lemma list_sum_le_eq {X : Type} (f g : X -> nat) (xs : list X) :
  (forall x, In x xs -> (f x <= g x)%nat) ->
  (list_sum (map f xs) <= list_sum (map g xs))%nat /\
  (list_sum (map f xs) = list_sum (map g xs) <-> forall x, In x xs -> f x = g x).
Proof.
  induction xs as [| x xs IH]; intros Hle.
  - simpl. split; [lia |]. split; [intros _ x [] | reflexivity].
  - cbn [map]. rewrite !list_sum_cons.
    destruct IH as [IHle IHeq]; [intros; apply Hle; right; assumption |].
    pose proof (Hle x (or_introl eq_refl)) as Hx.
    split; [lia |]. split.
    + intros Heq y [<- | Hy]; [lia |]. apply IHeq; [lia | exact Hy].
    + intros Hall. rewrite (Hall x (or_introl eq_refl)).
      f_equal. apply IHeq. intros; apply Hall; right; assumption.
Qed.

Lemma list_sum_ones {X : Type} (xs : list X) :
  list_sum (map (fun _ => 1%nat) xs) = length xs.
Proof.
  induction xs as [| x xs IH]; [reflexivity |].
  cbn [map length]. rewrite list_sum_cons, IH. reflexivity.
Qed.

Lemma edge_counted_le k e : (edge_counted k e <= 1)%nat.
Proof.
  unfold edge_counted. destruct (discretize k e) as [[| p ps] | err]; lia.
Qed.

Lemma edge_counted_one k e :
  edge_counted k e = 1%nat <-> exists p ps, discretize k e = Ok (p :: ps).
Proof.
  unfold edge_counted. destruct (discretize k e) as [[| p ps] | err]; split;
    try discriminate; try (intros (p' & ps' & H); discriminate); eauto.
Qed.

Lemma loop_counted_le_eq k w :
  (loop_counted k w <= loop_edges k w)%nat /\
  (loop_counted k w = loop_edges k w <->
   forall es e, Edges k w = Ok es -> In e es ->
                exists p ps, discretize k e = Ok (p :: ps)).
Proof.
  unfold loop_counted, loop_edges.
  destruct (Edges k w) as [es | err].
  - rewrite <- (list_sum_ones es).
    destruct (list_sum_le_eq (edge_counted k) (fun _ => 1%nat) es) as [Hle Heq];
      [intros; apply edge_counted_le |].
    split; [exact Hle |]. rewrite Heq. split.
    + intros H es' e Hes Hin. inversion Hes; subst es'.
      apply edge_counted_one. apply H. exact Hin.
    + intros H e Hin. apply edge_counted_one. apply (H es e eq_refl Hin).
  - split; [lia |]. split; [intros _ es e H; discriminate | reflexivity].
Qed.

(** X4. The edge count the import logs never exceeds the number of edges of
    the projection's loops, and reaches it exactly when every edge is
    discretized into a non-empty point sequence. *)
Theorem edge_count_bound k wires geo n :
  extract_geometry k wires = Ok (geo, n) ->
  (n <= list_sum (map (loop_edges k) wires))%nat /\
  (n = list_sum (map (loop_edges k) wires) <->
   forall w es e, In w wires -> Edges k w = Ok es -> In e es ->
                  exists p ps, discretize k e = Ok (p :: ps)).
Proof.
  intros H. unfold extract_geometry in H. apply for_each_wires_spec in H.
  destruct H as (_ & _ & ->). rewrite Nat.add_0_r.
  destruct (list_sum_le_eq (loop_counted k) (loop_edges k) wires) as [Hle Heq];
    [intros; apply loop_counted_le_eq |].
  split; [exact Hle |]. rewrite Heq. split.
  - intros H w es e Hw Hes Hin.
    apply (proj2 (loop_counted_le_eq k w)) with (es := es); auto.
  - intros H w Hw. apply (proj2 (loop_counted_le_eq k w)).
    intros es e Hes Hin. apply (H w es e Hw Hes Hin).
Qed.

Lemma edge_count_bound_witness :
  (2 <= list_sum (map (loop_edges (mock_kernel triangle_broken)) [0%nat]))%nat /\
  (2%nat = list_sum (map (loop_edges (mock_kernel triangle_broken)) [0%nat]) <->
   forall w es e, In w [0%nat] -> Edges (mock_kernel triangle_broken) w = Ok es ->
                  In e es ->
                  exists p ps, discretize (mock_kernel triangle_broken) e = Ok (p :: ps)).
Proof.
  apply (edge_count_bound (mock_kernel triangle_broken) [0%nat]
           [MoveTo 0 0; LineTo (inject_Z 2) 0; LineTo 0 0] 2%nat).
  reflexivity.
Defined.

(** ** The aligned projection (lines 72-94) *)

Lemma map_res_raise_inv {X Y : Type} (f : X -> res Y) (xs : list X) :
  forall e, map_res f xs = Raise e -> exists x e', In x xs /\ f x = Raise e'.
Proof.
  induction xs as [| x xs IH]; simpl; intros e H; [discriminate |].
  destruct (f x) as [y | e0] eqn:Hx; simpl in H.
  - destruct (map_res f xs) as [ys | e1]; simpl in H; [discriminate |].
    destruct (IH e1 eq_refl) as (x' & e' & Hin & Hx'). exists x', e'. auto.
  - exists x, e0. auto.
Qed.

Lemma largest_planar_face_cases k obj :
  alignment_degraded k obj \/ exists f, largest_planar_face k obj = Ok (Some f).
Proof.
  destruct (faces_PLANE k obj) as [[| f0 fs] | e] eqn:Hf.
  - left. apply no_planar_face. exact Hf.
  - destruct (map_res (Area k) (f0 :: fs)) as [keys | e] eqn:Hk.
    + right. apply (largest_planar_face_exists k obj (f0 :: fs) Hf); [discriminate |].
      apply map_res_ok in Hk. intros g Hg.
      destruct (Forall2_in_l _ _ _ Hk g Hg) as (a & _ & Ha). eauto.
    + left. apply map_res_raise_inv in Hk. destruct Hk as (g & e' & Hg & He').
      eapply area_raises; eauto.
  - left. eapply face_listing_raises; eauto.
Qed.

Lemma degraded_no_face k obj f :
  alignment_degraded k obj -> largest_planar_face k obj = Ok (Some f) ->
  (exists e, workplane k f = Raise e) \/
  (exists wp e, workplane k f = Ok wp /\ add_toPending k wp obj = Raise e).
Proof.
  intros [Hf | e Hf | fs g e Hf Hin Ha | g e Hl Hw | g wp e Hl Hw Hp] Hsome.
  - unfold largest_planar_face in Hsome. rewrite Hf in Hsome. discriminate.
  - unfold largest_planar_face in Hsome. rewrite Hf in Hsome. discriminate.
  - unfold largest_planar_face, sort_by_area in Hsome. rewrite Hf in Hsome.
    destruct fs as [| f0 fs']; [contradiction |]. cbn [bind] in Hsome.
    destruct (map_res_raise (Area k) (f0 :: fs') g e Hin Ha) as [e' He'].
    rewrite He' in Hsome. discriminate.
  - assert (g = f) by congruence. subst g. left. eauto.
  - assert (g = f) by congruence. subst g. right. eauto.
Qed.

(** X5. The alignment has two outcomes and no third.  Either it is degraded
    (no planar face, or a step raises) and the default projection of the
    model is used; or the largest planar face has a workplane onto which the
    object projects, that projection is used, and the default projection of
    the model is not asked for. *)
Theorem alignment_outcome k model obj :
  (alignment_degraded k obj /\
   choose_projection k model obj = toPending k model) \/
  (~ alignment_degraded k obj /\
   exists f wp p,
     largest_planar_face k obj = Ok (Some f) /\
     workplane k f = Ok wp /\
     add_toPending k wp obj = Ok p /\
     choose_projection k model obj = Ok p).
Proof.
  assert (Hfall : alignment_degraded k obj ->
                  choose_projection k model obj = toPending k model).
  { intros Hd. unfold choose_projection.
    rewrite (auto_align_degraded k obj Hd). reflexivity. }
  destruct (largest_planar_face_cases k obj) as [Hd | [f Hl]]; [left; auto |].
  destruct (workplane k f) as [wp | e] eqn:Hw.
  - destruct (add_toPending k wp obj) as [p | e] eqn:Hp.
    + right. split.
      * intros Hd. destruct (degraded_no_face k obj f Hd Hl)
          as [[e He] | (wp' & e & Hw' & He)]; congruence.
      * exists f, wp, p. repeat split; auto.
        unfold choose_projection, auto_align, align_to_largest_face.
        rewrite Hl. cbn [bind]. rewrite Hw. cbn [bind]. rewrite Hp. reflexivity.
    + left. split; [| apply Hfall]; eapply projection_raises; eauto.
  - left. split; [| apply Hfall]; eapply workplane_raises; eauto.
Qed.

Lemma alignment_outcome_witness :
  choose_projection (mock_kernel plate) 0%nat 7%nat = Ok 1%nat /\
  choose_projection (mock_kernel plate_bad_area) 0%nat 7%nat =
    toPending (mock_kernel plate_bad_area) 0%nat.
Proof.
  split.
  - destruct (alignment_outcome (mock_kernel plate) 0%nat 7%nat)
      as [[_ Hc] | [_ (f & wp & p & _ & _ & Hp & Hc)]].
    + vm_compute in Hc. discriminate.
    + vm_compute in Hp. inversion Hp; subst p. exact Hc.
  - destruct (alignment_outcome (mock_kernel plate_bad_area) 0%nat 7%nat)
      as [[_ Hc] | [_ (f & wp & p & Hl & _)]].
    + exact Hc.
    + vm_compute in Hl. discriminate.
Defined.

(** ** The sort of the faces (line 80) *)

Lemma insert_desc_perm x l : Permutation (x :: l) (insert_desc x l).
Proof.
  induction l as [| y l IH]; simpl; [apply Permutation_refl |].
  destruct (Qle_bool (snd y) (snd x)); [apply Permutation_refl |].
  eapply Permutation_trans; [apply perm_swap |]. apply perm_skip. exact IH.
Qed.

Lemma sort_desc_perm l : Permutation l (sort_desc l).
Proof.
  induction l as [| x l IH]; simpl; [constructor |].
  eapply Permutation_trans; [apply perm_skip; exact IH | apply insert_desc_perm].
Qed.

Lemma insert_desc_sorted x l :
  StronglySorted (fun a b : FaceH * Q => snd b <= snd a) l ->
  StronglySorted (fun a b : FaceH * Q => snd b <= snd a) (insert_desc x l).
Proof.
  induction 1 as [| y l Hs IH Hy]; simpl.
  - constructor; constructor.
  - destruct (Qle_bool (snd y) (snd x)) eqn:Hle.
    + apply Qle_bool_iff in Hle. constructor; [constructor; assumption |].
      constructor; [exact Hle |].
      rewrite Forall_forall in *. intros z Hz. eapply Qle_trans; [apply Hy, Hz | exact Hle].
    + assert (Hlt : snd x < snd y).
      { apply Qnot_le_lt. intros Hc. apply Qle_bool_iff in Hc. congruence. }
      constructor; [exact IH |].
      rewrite Forall_forall in *. intros z Hz.
      apply (Permutation_in _ (Permutation_sym (insert_desc_perm x l))) in Hz.
      destruct Hz as [<- | Hz]; [apply Qlt_le_weak; exact Hlt | apply Hy, Hz].
Qed.

Lemma sort_desc_sorted l :
  StronglySorted (fun a b : FaceH * Q => snd b <= snd a) (sort_desc l).
Proof.
  induction l as [| x l IH]; simpl; [constructor |].
  apply insert_desc_sorted. exact IH.
Qed.

Lemma StronglySorted_map_in {X Y : Type} (R : X -> X -> Prop) (R' : Y -> Y -> Prop)
      (P : X -> Prop) (f : X -> Y) (l : list X) :
  (forall a b, P a -> P b -> R a b -> R' (f a) (f b)) ->
  Forall P l -> StronglySorted R l -> StronglySorted R' (map f l).
Proof.
  intros HR HP Hs. induction Hs as [| a l Hs IH Ha]; simpl; [constructor |].
  inversion HP as [| a' l' Pa Pl]; subst.
  constructor; [apply IH; exact Pl |].
  rewrite Forall_forall in *. intros y Hy. apply in_map_iff in Hy.
  destruct Hy as (b & <- & Hb). apply HR; auto.
Qed.

(** X6. When every area is computed, the sort of line 80 returns the same
    faces, none lost and none repeated, in non-increasing order of area; it
    raises only when an [Area()] call raises. *)
Theorem sort_by_area_sorted k fs :
  (forall sorted, sort_by_area k fs = Ok sorted ->
     Permutation fs sorted /\ StronglySorted (area_ge k) sorted) /\
  (forall e, sort_by_area k fs = Raise e ->
     exists f e', In f fs /\ Area k f = Raise e').
Proof.
  unfold sort_by_area. split.
  - intros sorted H. apply bind_ok in H. destruct H as (keys & Hk & H).
    inversion H as [Hs]. clear H.
    apply map_res_ok in Hk. destruct (combine_keys _ _ _ Hk) as [Hfst Hall].
    split.
    + rewrite <- Hfst at 1. apply Permutation_map. apply sort_desc_perm.
    + apply (StronglySorted_map_in
               (fun a b : FaceH * Q => snd b <= snd a) (area_ge k)
               (fun p => Area k (fst p) = Ok (snd p)) fst).
      * intros a b Ha Hb Hab. exists (snd a), (snd b). auto.
      * rewrite Forall_forall in *. intros p Hp. apply Hall.
        apply (Permutation_in _ (Permutation_sym (sort_desc_perm _))). exact Hp.
      * apply sort_desc_sorted.
  - intros e H. destruct (map_res (Area k) fs) as [keys | e0] eqn:Hk;
      cbn [bind] in H; [discriminate |].
    apply (map_res_raise_inv _ _ _ Hk).
Qed.

Lemma sort_by_area_sorted_witness :
  Permutation [0; 1; 2]%nat [1; 2; 0]%nat /\
  StronglySorted (area_ge (mock_kernel plate)) [1; 2; 0]%nat.
Proof.
  apply (sort_by_area_sorted (mock_kernel plate) [0; 1; 2]%nat). reflexivity.
Defined.

(** ** The unit square (lines 148-156) *)

Lemma unit_interval lo hi x :
  lo < hi -> lo <= x -> x <= hi ->
  0 <= (1 / (hi - lo)) * (x - lo) /\ (1 / (hi - lo)) * (x - lo) <= 1.
Proof.
  intros Hlt Hlo Hhi.
  assert (Hw : 0 < hi - lo) by lra.
  assert (Hi : 0 < 1 / (hi - lo)).
  { unfold Qdiv. rewrite Qmult_1_l. apply Qinv_lt_0_compat. exact Hw. }
  assert (Hone : (1 / (hi - lo)) * (hi - lo) == 1).
  { field. intros Hc. rewrite Hc in Hw. exact (Qlt_irrefl 0 Hw). }
  split.
  - apply Qmult_le_0_compat; [apply Qlt_le_weak; exact Hi | lra].
  - apply Qle_trans with ((1 / (hi - lo)) * (hi - lo)).
    + apply (proj2 (Qmult_le_l (x - lo) (hi - lo) _ Hi)). lra.
    + rewrite Hone. apply Qle_refl.
Qed.

Lemma normalized_bbox ps a b c d :
  0 < c - a -> 0 < d - b ->
  is_bbox ps (a, b, c, d) ->
  is_bbox
    (map (fun p => apply_matrix (matmul (translation 0 1) (scale 1 (-1)))
                     (apply_matrix (scale (1 / (c - a)) (1 / (d - b)))
                        (apply_matrix (translation (- a) (- b)) p))) ps)
    (0, 0, 1, 1).
Proof.
  intros Hw Hh. unfold is_bbox.
  intros (Hall & (pa & Hpa & Ha) & (pb & Hpb & Hb) & (pc & Hpc & Hc) & (pd & Hpd & Hd)).
  set (N := fun p : Q * Q =>
              apply_matrix (matmul (translation 0 1) (scale 1 (-1)))
                (apply_matrix (scale (1 / (c - a)) (1 / (d - b)))
                   (apply_matrix (translation (- a) (- b)) p))).
  assert (Hx : forall p, fst (N p) == (1 / (c - a)) * (fst p - a)).
  { intros [x y]. unfold N. simpl. ring. }
  assert (Hy : forall p, snd (N p) == 1 - (1 / (d - b)) * (snd p - b)).
  { intros [x y]. unfold N. simpl. ring. }
  assert (Hone_x : (1 / (c - a)) * (c - a) == 1).
  { field. intros Hz. rewrite Hz in Hw. exact (Qlt_irrefl 0 Hw). }
  assert (Hone_y : (1 / (d - b)) * (d - b) == 1).
  { field. intros Hz. rewrite Hz in Hh. exact (Qlt_irrefl 0 Hh). }
  split; [| split; [| split; [| split]]].
  - intros q Hq. apply in_map_iff in Hq. destruct Hq as (p & <- & Hp).
    destruct (Hall p Hp) as (H1 & H2 & H3 & H4).
    destruct (unit_interval a c (fst p)) as [Hx0 Hx1]; [lra | assumption | assumption |].
    destruct (unit_interval b d (snd p)) as [Hy0 Hy1]; [lra | assumption | assumption |].
    pose proof (Hx p). pose proof (Hy p). repeat split; lra.
  - exists (N pa). split; [apply in_map; exact Hpa |].
    rewrite Hx. rewrite Ha. ring.
  - exists (N pd). split; [apply in_map; exact Hpd |].
    rewrite Hy. rewrite Hd. rewrite Hone_y. ring.
  - exists (N pc). split; [apply in_map; exact Hpc |].
    rewrite Hx. rewrite Hc. exact Hone_x.
  - exists (N pb). split; [apply in_map; exact Hpb |].
    rewrite Hy. rewrite Hb. ring.
Qed.

(** X7. In a successful import of a geometry of positive width and height
    the normalised geometry of the payload lies in the unit square and
    touches its four sides: its bounding box is (0, 0, 1, 1). *)
Theorem mask_fills_unit_square h k self payload :
  get_doc_items h k self = Ok (Some payload) ->
  exists projection wires geo n,
    load_projection k self = Ok (Some projection) /\
    vals k projection = Ok wires /\
    extract_geometry k wires = Ok (geo, n) /\
    forall min_x min_y max_x max_y,
      rect geo = (min_x, min_y, max_x, max_y) ->
      0 < max_x - min_x -> 0 < max_y - min_y ->
      forall mask, In mask (masks payload) ->
        rect_eq (rect mask) (0, 0, 1, 1) /\
        forall p, In p (points mask) ->
                  0 <= fst p /\ fst p <= 1 /\ 0 <= snd p /\ snd p <= 1.
Proof.
  intros H. apply get_doc_items_success_inv in H.
  destruct H as (path & projection & wires & geo & n & _ & _ & Hl & Hv & He & _ & Hp).
  exists projection, wires, geo, n. repeat (split; [assumption |]).
  intros min_x min_y max_x max_y Hr Hw Hh mask Hmask.
  destruct (package_masks _ _ _ Hp) as (norm_geo & Hn & Hm).
  rewrite Hm in Hmask. destruct Hmask as [<- | []].
  rewrite (normalize_eq geo _ _ _ _ Hr) in Hn.
  assert (Hb : Qpos_bool (max_x - min_x) && Qpos_bool (max_y - min_y) = true).
  { apply andb_true_iff. rewrite !Qpos_bool_iff. auto. }
  rewrite Hb in Hn. inversion Hn; subst norm_geo. clear Hn.
  assert (Hne : points geo <> []).
  { intros Hnil. unfold rect in Hr. rewrite Hnil in Hr. simpl in Hr.
    inversion Hr; subst. revert Hw. apply Qlt_irrefl. }
  pose proof (rect_of_points_bbox (points geo) Hne) as Hbox.
  fold (rect geo) in Hbox. rewrite Hr in Hbox.
  apply (normalized_bbox _ _ _ _ _ Hw Hh) in Hbox.
  match type of Hbox with
  | is_bbox ?ps _ =>
      assert (Hpts : points
                (transform (matmul (translation 0 1) (scale 1 (-1)))
                   (transform (scale (1 / (max_x - min_x)) (1 / (max_y - min_y)))
                      (transform (translation (- min_x) (- min_y)) geo))) = ps)
        by (rewrite !points_transform, !map_map; reflexivity)
  end.
  rewrite <- Hpts in Hbox. clear Hpts.
  split.
  - eapply bbox_unique.
    + apply rect_of_points_bbox. intros Hnil. rewrite !points_transform in Hnil.
      apply map_eq_nil in Hnil. apply map_eq_nil in Hnil. apply map_eq_nil in Hnil.
      exact (Hne Hnil).
    + exact Hbox.
    + intros p Hin. exists p. split; [exact Hin | split; reflexivity].
    + intros p Hin. exists p. split; [exact Hin | split; reflexivity].
  - destruct Hbox as (Hall & _). exact Hall.
Qed.

Lemma mask_fills_unit_square_witness :
  exists payload,
    get_doc_items good_host (mock_kernel triangle) demo_importer = Ok (Some payload) /\
    forall mask, In mask (masks payload) ->
      rect_eq (rect mask) (0, 0, 1, 1) /\
      forall p, In p (points mask) ->
                0 <= fst p /\ fst p <= 1 /\ 0 <= snd p /\ snd p <= 1.
Proof.
  destruct (get_doc_items good_host (mock_kernel triangle) demo_importer)
    as [[payload |] | e] eqn:Hrun; try (vm_compute in Hrun; discriminate).
  exists payload. split; [reflexivity |].
  destruct (mask_fills_unit_square good_host (mock_kernel triangle) demo_importer
              payload Hrun) as (projection & wires & geo & n & Hl & Hv & He & Hsq).
  vm_compute in Hl. inversion Hl; subst projection.
  vm_compute in Hv. inversion Hv; subst wires.
  assert (Hgeo : geo = triangle_geo) by (vm_compute in He; inversion He; reflexivity).
  subst geo.
  apply (Hsq 0 0 (inject_Z 2) (inject_Z 4) eq_refl); reflexivity.
Defined.

(** ** The payload (lines 135-172) *)

Lemma is_empty_false_points geo : is_empty geo = false -> points geo <> [].
Proof.
  unfold is_empty. intros H Hnil. apply orb_false_iff in H. destruct H as [_ H].
  rewrite Hnil in H. discriminate.
Qed.

Lemma rect_ordered geo min_x min_y max_x max_y :
  points geo <> [] ->
  rect geo = (min_x, min_y, max_x, max_y) ->
  min_x <= max_x /\ min_y <= max_y.
Proof.
  intros Hne Hr. pose proof (rect_of_points_bbox (points geo) Hne) as Hbox.
  fold (rect geo) in Hbox. rewrite Hr in Hbox.
  destruct Hbox as (Hall & (pa & Hpa & _) & _).
  destruct (Hall pa Hpa) as (H1 & H2 & H3 & H4). split; lra.
Qed.

(** X8. A successful import hands over exactly one work piece, named after
    the stem of the source file, together with the bytes and the file name
    it was given; with (minX, minY, maxX, maxY) the bounding box of the
    assembled geometry, the natural size of the asset, its size in
    millimetres and the size of the segment are all maxX - minX by
    maxY - minY, never negative; the segment holds the normalised copy of
    the assembled geometry, and the matrix of the work piece is the
    translation by (minX, minY) after the scale by that width and height. *)
Theorem payload_shape h k self payload :
  get_doc_items h k self = Ok (Some payload) ->
  exists projection wires geo n,
    load_projection k self = Ok (Some projection) /\
    vals k projection = Ok wires /\
    extract_geometry k wires = Ok (geo, n) /\
    forall min_x min_y max_x max_y,
      rect geo = (min_x, min_y, max_x, max_y) ->
      exists norm_geo,
        normalize geo = Ok norm_geo /\
        payload =
          mkImportPayload
            (mkSourceAsset (source_file self) (raw_data self) true
                           (max_x - min_x, max_y - min_y)
                           (max_x - min_x) (max_y - min_y))
            [mkWorkPiece (source_file_stem self)
                         (mkSourceAssetSegment norm_geo
                                               (max_x - min_x) (max_y - min_y))
                         (matmul (translation min_x min_y)
                                 (scale (max_x - min_x) (max_y - min_y)))] /\
        0 <= max_x - min_x /\ 0 <= max_y - min_y.
Proof.
  intros H. apply get_doc_items_success_inv in H.
  destruct H as (path & projection & wires & geo & n & _ & _ & Hl & Hv & He & Hne & Hp).
  exists projection, wires, geo, n. repeat (split; [assumption |]).
  intros min_x min_y max_x max_y Hr.
  apply is_empty_false_points in Hne.
  destruct (rect_ordered geo _ _ _ _ Hne Hr) as [Hx Hy].
  unfold package in Hp. rewrite Hr in Hp.
  destruct (normalize geo) as [norm_geo | e]; cbn [bind] in Hp; [| discriminate].
  exists norm_geo. split; [reflexivity |].
  split; [congruence |]. split; lra.
Qed.

Lemma payload_shape_witness :
  exists payload norm_geo,
    get_doc_items good_host (mock_kernel triangle) demo_importer = Ok (Some payload) /\
    normalize triangle_geo = Ok norm_geo /\
    payload =
      mkImportPayload
        (mkSourceAsset "part.step"%string [x49; x53; x4f] true
                       (inject_Z 2 - 0, inject_Z 4 - 0)
                       (inject_Z 2 - 0) (inject_Z 4 - 0))
        [mkWorkPiece "part"%string
                     (mkSourceAssetSegment norm_geo (inject_Z 2 - 0) (inject_Z 4 - 0))
                     (matmul (translation 0 0)
                             (scale (inject_Z 2 - 0) (inject_Z 4 - 0)))].
Proof.
  destruct (get_doc_items good_host (mock_kernel triangle) demo_importer)
    as [[payload |] | e] eqn:Hrun; try (vm_compute in Hrun; discriminate).
  destruct (payload_shape good_host (mock_kernel triangle) demo_importer payload Hrun)
    as (projection & wires & geo & n & Hl & Hv & He & Hshape).
  vm_compute in Hl. inversion Hl; subst projection.
  vm_compute in Hv. inversion Hv; subst wires.
  assert (Hgeo : geo = triangle_geo) by (vm_compute in He; inversion He; reflexivity).
  subst geo.
  destruct (Hshape 0 0 (inject_Z 2) (inject_Z 4) eq_refl) as (norm_geo & Hn & Hpay & _).
  exists payload, norm_geo. split; [reflexivity |]. split; assumption.
Defined.

(* ================================================================== *)
(** * The temporary file *)

Lemma path_exists_in p fs : path_exists p fs = true <-> In p fs.
Proof.
  unfold path_exists. rewrite existsb_exists. split.
  - intros (q & Hq & Heq). apply String.eqb_eq in Heq. subst. exact Hq.
  - intros H. exists p. split; [exact H | apply String.eqb_refl].
Qed.

Lemma remove_path_in p q fs : In q (remove_path p fs) <-> In q fs /\ q <> p.
Proof.
  unfold remove_path. rewrite filter_In. rewrite negb_true_iff. split.
  - intros [Hin Hne]. split; [exact Hin |]. intros ->.
    rewrite String.eqb_refl in Hne. discriminate.
  - intros [Hin Hne]. split; [exact Hin |].
    apply String.eqb_neq. intros ->. apply Hne. reflexivity.
Qed.

(** What the [finally] clause leaves: the file is gone when the removal
    works, and no other file is touched. *)
Lemma cleanup_spec os p fs :
  (forall q, q <> p -> (In q (cleanup os p fs) <-> In q fs)) /\
  ((exists u, os_remove os p = Ok u) -> ~ In p (cleanup os p fs)) /\
  ((exists e, os_remove os p = Raise e) -> cleanup os p fs = fs).
Proof.
  unfold cleanup. split; [| split].
  - intros q Hq. destruct (path_exists p fs); [| reflexivity].
    destruct (os_remove os p); [| reflexivity].
    rewrite remove_path_in. tauto.
  - intros [u Hu]. rewrite Hu.
    destruct (path_exists p fs) eqn:Hex.
    + rewrite remove_path_in. intros [_ Hne]. apply Hne. reflexivity.
    + intros Hin. apply path_exists_in in Hin. congruence.
  - intros [e He]. rewrite He. destruct (path_exists p fs); reflexivity.
Qed.

(** X10. Once the temporary file is created and written, it is removed on
    every way out of the import (payload, [None], or an exception caught by
    the outer handler) provided [os.remove] succeeds, and no other file is
    touched by the cleanup; when [os.remove] raises, the error is swallowed
    and the files stay as the import left them. *)
Theorem temp_file_removed os k self fs tmp_path u :
  os_CQ_AVAILABLE os = true ->
  NamedTemporaryFile os = Ok tmp_path ->
  os_write os (raw_data self) = Ok u ->
  let after := snd (get_doc_items_os os k self fs) in
  (exists r, fst (get_doc_items_os os k self fs) = Ok r) /\
  (forall q, q <> tmp_path ->
     (In q after <-> In q (during_import os (tmp_path :: fs)))) /\
  ((exists u', os_remove os tmp_path = Ok u') -> ~ In tmp_path after) /\
  ((exists e, os_remove os tmp_path = Raise e) ->
     after = during_import os (tmp_path :: fs)).
Proof.
  intros Hcq Htmp Hw. unfold get_doc_items_os. rewrite Hcq, Htmp, Hw. cbn [negb fst snd].
  split; [apply try_except_total |].
  apply cleanup_spec.
Qed.

Lemma temp_file_removed_witness :
  snd (get_doc_items_os working_os (mock_kernel triangle) demo_importer
         ["/tmp/other.step"%string]) = ["/tmp/other.step"%string] /\
  snd (get_doc_items_os locked_os (mock_kernel bad_first_loop) demo_importer
         ["/tmp/other.step"%string]) =
    ["/tmp/tmpq3.step"%string; "/tmp/other.step"%string].
Proof.
  split.
  - reflexivity.
  - destruct (temp_file_removed locked_os (mock_kernel bad_first_loop) demo_importer
                ["/tmp/other.step"%string] "/tmp/tmpq3.step"%string tt
                eq_refl eq_refl eq_refl) as (_ & _ & _ & Hkept).
    apply Hkept. eexists. reflexivity.
Defined.

(** X11. Two ways out bypass the cleanup.  Without the library no file is
    created.  When the write to the temporary file raises, the exception
    leaves [get_doc_items] and the file, created with [delete=False], is
    left behind. *)
Theorem temp_file_left_behind os k self fs :
  (os_CQ_AVAILABLE os = false ->
     get_doc_items_os os k self fs = (Ok None, fs)) /\
  (forall tmp_path e,
     os_CQ_AVAILABLE os = true ->
     NamedTemporaryFile os = Ok tmp_path ->
     os_write os (raw_data self) = Raise e ->
     get_doc_items_os os k self fs = (Raise e, tmp_path :: fs)) /\
  (forall e,
     os_CQ_AVAILABLE os = true ->
     NamedTemporaryFile os = Raise e ->
     get_doc_items_os os k self fs = (Raise e, fs)).
Proof.
  unfold get_doc_items_os. split; [| split].
  - intros ->. reflexivity.
  - intros tmp_path e -> -> ->. reflexivity.
  - intros e -> ->. reflexivity.
Qed.

Lemma temp_file_left_behind_witness :
  get_doc_items_os full_disk_os (mock_kernel triangle) demo_importer [] =
  (Raise "OSError: [Errno 28] No space left on device"%string,
   ["/tmp/tmpq3.step"%string]).
Proof.
  destruct (temp_file_left_behind full_disk_os (mock_kernel triangle) demo_importer [])
    as (_ & Hleft & _).
  apply Hleft; reflexivity.
Defined.

(* ================================================================== *)
(** * The division of line 153 in binary64 *)

Lemma b64_positive_is_not_zero w :
  B64.fltb B64.f0 w = true -> B64.feqb w B64.f0 = false.
Proof.
  destruct w as [s | s | | s m e]; try destruct s; cbn; intros H;
    try discriminate; reflexivity.
Qed.

Lemma b64_py_div_pos a w :
  B64.fltb B64.f0 w = true -> B64.py_div a w = Ok (B64.fdiv a w).
Proof.
  intros H. unfold B64.py_div. rewrite (b64_positive_is_not_zero w H). reflexivity.
Qed.

(** X12. In binary64, whatever the coordinates (finite, infinite or NaN),
    the normalisation never raises [ZeroDivisionError]: the test of
    line 152 lets the divisions of line 153 run only on divisors that are
    not zero; the normalised copy has as many commands as the geometry. *)
Theorem normalize_b64_never_divides_by_zero geo :
  exists norm_geo,
    B64.normalize geo = Ok norm_geo /\ length norm_geo = length geo.
Proof.
  unfold B64.normalize.
  destruct (B64.rect geo) as [[[min_x min_y] max_x] max_y].
  destruct (B64.fltb B64.f0 (B64.fsub max_x min_x)) eqn:Hw; cbn [andb].
  - destruct (B64.fltb B64.f0 (B64.fsub max_y min_y)) eqn:Hh.
    + rewrite (b64_py_div_pos _ _ Hw). cbn [bind].
      rewrite (b64_py_div_pos _ _ Hh). cbn [bind].
      eexists. split; [reflexivity |]. unfold B64.transform. rewrite !length_map.
      reflexivity.
    + cbn [bind]. eexists. split; [reflexivity |].
      unfold B64.transform. rewrite !length_map. reflexivity.
  - cbn [bind]. eexists. split; [reflexivity |].
    unfold B64.transform. rewrite !length_map. reflexivity.
Qed.
